(** * Game-X-O: the tic-tac-toe engine and its minimax opponent

    A shallow embedding of [ai.js] (class [TicTacToeAI]) and of the game
    script (the [gameState] object with [makeMove], [checkGameStatus],
    [handleCellClick], [resetGame]), followed by the properties of the
    decision engine that the specification states about them.

    JavaScript values are modelled as follows.
    - A cell holds one of the strings [''], ['X'], ['O']: the type [mark].
    - The board is a nine-element array: a [list mark], read with [!!]
      (an index past the end reads [undefined], here [None]) and written
      with [<[i:=v]>].  Every write of the sources is to an index whose
      read has just been compared with [''], hence to an index in range.
    - Scores are JavaScript numbers that are integers or [±Infinity]: [num].
    - The functions of [TicTacToeAI] mutate the array they receive and
      restore it; they are written in a state monad over the board, so
      that the array after the call is part of the result.
    - [minimax] is recursive; the model takes the recursion depth still
      allowed as [fuel] and returns [None] when it is exhausted. *)

From Stdlib Require Import ZArith Lia List Bool.
From stdpp Require Import base option list.

Open Scope Z_scope.

(** ** Cells, boards and numbers *)

Inductive mark : Type :=
| Empty   (* '' *)
| X       (* 'X' *)
| O.      (* 'O' *)

Global Instance mark_eq_dec : EqDecision mark.
Proof. solve_decision. Defined.

Abbreviation board := (list mark).

(** [board[i] === '']: false for a filled cell and for [undefined]. *)
Definition isEmptyAt (b : board) (i : nat) : bool :=
  match b !! i with
  | Some Empty => true
  | _ => false
  end.

(** Truthiness of a cell: the empty string is falsy. *)
Definition truthy (m : mark) : bool :=
  match m with
  | Empty => false
  | _ => true
  end.

(** Integers extended with the two infinities used as initial bounds. *)
Inductive num : Type :=
| NegInf
| Fin (z : Z)
| PosInf.

Definition num_leb (a b : num) : bool :=
  match a, b with
  | NegInf, _ => true
  | _, PosInf => true
  | Fin x, Fin y => x <=? y
  | _, _ => false
  end.

(** [a > b] *)
Definition num_gtb (a b : num) : bool := negb (num_leb a b).

(** [Math.max(a, b)] and [Math.min(a, b)] *)
Definition num_max (a b : num) : num := if num_leb a b then b else a.
Definition num_min (a b : num) : num := if num_leb a b then a else b.

(** A JavaScript return value of the move selectors. *)
Inductive value : Type :=
| Num (n : Z)
| Undefined.

(** A sample of [Math.random()]: the fraction [snum / sden] of [0, 1). *)
Record sample : Type := {
  snum : nat;
  sden : nat
}.

(** [Math.floor(r * n)] *)
Definition floorTimes (r : sample) (n : nat) : nat :=
  ((snum r * n) / sden r)%nat.

(** The error kinds that the specification names.  No function of the
    sources contains a [throw]. *)
Inductive error : Type :=
| InvalidMove
| EmptyBoardRequestedMove.

(** How a call completes: by returning a value or by throwing. *)
Inductive completion (A : Type) : Type :=
| Return (v : A)
| Throw (e : error).
Arguments Return {A} v.
Arguments Throw {A} e.

(** ** The board-threading monad *)

Definition M (A : Type) : Type := board -> option (A * board).

Global Instance M_ret : MRet M := fun A x b => Some (x, b).
Global Instance M_bind : MBind M := fun A B f m b =>
  match m b with
  | Some (x, b') => f x b'
  | None => None
  end.

(** [board[i] === ''] *)
Definition cellIsEmpty (i : nat) : M bool := fun b => Some (isEmptyAt b i, b).
(** [board[i] = v] *)
Definition setCell (i : nat) (v : mark) : M unit := fun b => Some (tt, <[i:=v]> b).
(** a pure read of the whole array *)
Definition inspect {A} (f : board -> A) : M A := fun b => Some (f b, b).

(** ** ai.js *)

Module AI.

Record TicTacToeAI : Type := {
  aiPlayer : mark;
  humanPlayer : mark
}.

Definition winPatterns : list (nat * nat * nat) :=
  [ (0, 1, 2); (3, 4, 5); (6, 7, 8);
    (0, 3, 6); (1, 4, 7); (2, 5, 8);
    (0, 4, 8); (2, 4, 6) ]%nat.

(** [board[a] && board[a] === board[b] && board[a] === board[c]],
    returning [board[a]] when it holds. *)
Definition lineMark (b : board) (p : nat * nat * nat) : option mark :=
  let '(a, b', c) := p in
  match b !! a with
  | Some m =>
      if truthy m && bool_decide (b !! b' = Some m) && bool_decide (b !! c = Some m)
      then Some m else None
  | None => None
  end.

(** The [for (let pattern of winPatterns)] loop with its early return. *)
Fixpoint firstLine (b : board) (ps : list (nat * nat * nat)) : option mark :=
  match ps with
  | [] => None
  | p :: ps' =>
      match lineMark b p with
      | Some m => Some m
      | None => firstLine b ps'
      end
  end.

(** What [checkWinner] returns when it is not [null]: a mark or ['draw']. *)
Inductive verdict : Type :=
| Winner (m : mark)
| DrawStr.

Global Instance verdict_eq_dec : EqDecision verdict.
Proof. solve_decision. Defined.

Definition checkWinner (b : board) : option verdict :=
  match firstLine b winPatterns with
  | Some m => Some (Winner m)
  | None =>
      if forallb (fun cell => negb (bool_decide (cell = Empty))) b
      then Some DrawStr
      else None
  end.

(** The indices visited by [for (let i = 0; i < 9; i++)]. *)
Definition cells : list nat := seq 0 9.

Section Search.

Variable self : TicTacToeAI.

(** The maximizing loop of [minimax]; [rec alpha beta] is the recursive
    call [this.minimax(board, depth + 1, false, alpha, beta)]. *)
Fixpoint maxLoop (rec : num -> num -> M num) (idxs : list nat)
    (maxScore alpha beta : num) : M num :=
  match idxs with
  | [] => mret maxScore
  | i :: rest =>
      e ← cellIsEmpty i;
      if e : bool then
        setCell i (aiPlayer self);;
        score ← rec alpha beta;
        setCell i Empty;;
        let maxScore := num_max score maxScore in
        let alpha := num_max alpha score in
        if num_leb beta alpha then mret maxScore
        else maxLoop rec rest maxScore alpha beta
      else maxLoop rec rest maxScore alpha beta
  end.

(** The minimizing loop of [minimax]. *)
Fixpoint minLoop (rec : num -> num -> M num) (idxs : list nat)
    (minScore alpha beta : num) : M num :=
  match idxs with
  | [] => mret minScore
  | i :: rest =>
      e ← cellIsEmpty i;
      if e : bool then
        setCell i (humanPlayer self);;
        score ← rec alpha beta;
        setCell i Empty;;
        let minScore := num_min score minScore in
        let beta := num_min beta score in
        if num_leb beta alpha then mret minScore
        else minLoop rec rest minScore alpha beta
      else minLoop rec rest minScore alpha beta
  end.

(** The score of a finished position. *)
Definition terminalScore (result : verdict) (depth : Z) : num :=
  if bool_decide (result = Winner (aiPlayer self)) then Fin (10 - depth)
  else if bool_decide (result = Winner (humanPlayer self)) then Fin (depth - 10)
  else Fin 0.

Fixpoint minimax (fuel : nat) (depth : Z) (isMaximizing : bool)
    (alpha beta : num) : M num :=
  match fuel with
  | 0%nat => fun _ => None
  | S fuel' =>
      result ← inspect checkWinner;
      match result with
      | Some r => mret (terminalScore r depth)
      | None =>
          if isMaximizing
          then maxLoop (minimax fuel' (depth + 1) false) cells NegInf alpha beta
          else minLoop (minimax fuel' (depth + 1) true) cells PosInf alpha beta
      end
  end.

(** The loop of [getBestMove], carrying [bestScore] and [bestMove]. *)
Fixpoint bestLoop (rec : M num) (idxs : list nat)
    (bestScore : num) (bestMove : Z) : M Z :=
  match idxs with
  | [] => mret bestMove
  | i :: rest =>
      e ← cellIsEmpty i;
      if e : bool then
        setCell i (aiPlayer self);;
        score ← rec;
        setCell i Empty;;
        if num_gtb score bestScore
        then bestLoop rec rest score (Z.of_nat i)
        else bestLoop rec rest bestScore bestMove
      else bestLoop rec rest bestScore bestMove
  end.

Definition getBestMove (fuel : nat) : M Z :=
  bestLoop (minimax fuel 0 false NegInf PosInf) cells NegInf (-1).

(** *** The easier strategies *)

(** The loops of [getMediumMove]: place [m] on each empty cell in turn and
    return the first cell where [checkWinner] answers [m]; every placement
    is undone, also on the early return. *)
Fixpoint probeLoop (m : mark) (idxs : list nat) : M (option nat) :=
  match idxs with
  | [] => mret None
  | i :: rest =>
      e ← cellIsEmpty i;
      if e : bool then
        setCell i m;;
        w ← inspect checkWinner;
        if bool_decide (w = Some (Winner m))
        then setCell i Empty;; mret (Some i)
        else setCell i Empty;; probeLoop m rest
      else probeLoop m rest
  end.

(** [emptyCells]: the indices pushed by the loop of [getRandomMove]. *)
Definition emptyCells (b : board) : list nat :=
  filter (fun i => isEmptyAt b i = true) cells.

(** [emptyCells[Math.floor(Math.random() * emptyCells.length)]].  Reading
    an array past its end (here: the empty array at 0) gives [undefined]. *)
Definition getRandomMove (r : sample) (b : board) : completion value :=
  let emptyCells := emptyCells b in
  match emptyCells !! floorTimes r (length emptyCells) with
  | Some i => Return (Num (Z.of_nat i))
  | None => Return Undefined
  end.

Definition getMediumMove (r : sample) : M (completion value) :=
  win ← probeLoop (aiPlayer self) cells;
  match win with
  | Some i => mret (Return (Num (Z.of_nat i)))
  | None =>
      block ← probeLoop (humanPlayer self) cells;
      match block with
      | Some i => mret (Return (Num (Z.of_nat i)))
      | None => inspect (getRandomMove r)
      end
  end.

End Search.

End AI.

(** ** The game script *)

Module Game.

Inductive mode : Type :=
| ModeAI   (* 'ai' *)
| Mode2P.  (* '2p' *)

Global Instance mode_eq_dec : EqDecision mode.
Proof. solve_decision. Defined.

Record scoreBoard : Type := {
  scoreX : Z;
  scoreO : Z;
  draws : Z
}.

(** An entry of [moveHistory]: [{index, player}]. *)
Record move : Type := {
  index : nat;
  player : mark
}.

Record gameState : Type := {
  board_ : board;
  currentPlayer : mark;
  gameMode : mode;
  scores : scoreBoard;
  winningLine : option (nat * nat * nat);
  moveHistory : list move;
  isProcessing : bool;
  gameActive : option bool   (* absent until [handleWin] or [resetGame] *)
}.

(** [gameState.maxMoves]: initialised to 9 and never assigned. *)
Definition maxMoves : nat := 9.

Definition initialState : gameState := {|
  board_ := [Empty; Empty; Empty; Empty; Empty; Empty; Empty; Empty; Empty];
  currentPlayer := X;
  gameMode := ModeAI;
  scores := {| scoreX := 0; scoreO := 0; draws := 0 |};
  winningLine := None;
  moveHistory := [];
  isProcessing := false;
  gameActive := None
|}.

Definition winPatterns : list (nat * nat * nat) :=
  [ (0, 1, 2); (3, 4, 5); (6, 7, 8);
    (0, 3, 6); (1, 4, 7); (2, 5, 8);
    (0, 4, 8); (2, 4, 6) ]%nat.

(** [let ai = new TicTacToeAI('O', 'X')] *)
Definition ai : AI.TicTacToeAI := {| AI.aiPlayer := O; AI.humanPlayer := X |}.

(** [gameState.currentPlayer === 'X' ? 'O' : 'X'] *)
Definition switchPlayer (p : mark) : mark :=
  match p with
  | X => O
  | _ => X
  end.

(** [makeMove(index)], without its DOM updates, for an [index] from 0 to
    8: both call sites have just read [board[index] === ''].  (With any
    other index the script would grow the array and then fail on
    [cells[index]]; every property below keeps the index in range.) *)
Definition makeMove (index : nat) (st : gameState) : gameState :=
  let '(b, h) :=
    if (maxMoves <=? length (moveHistory st))%nat then
      match moveHistory st with
      | oldestMove :: h' => (<[Game.index oldestMove := Empty]> (board_ st), h')
      | [] => (board_ st, [])
      end
    else (board_ st, moveHistory st) in
  {| board_ := <[index := currentPlayer st]> b;
     currentPlayer := switchPlayer (currentPlayer st);
     gameMode := gameMode st;
     scores := scores st;
     winningLine := winningLine st;
     moveHistory := h ++ [ {| Game.index := index; player := currentPlayer st |} ];
     isProcessing := isProcessing st;
     gameActive := gameActive st |}.

(** [gameState.scores[winner]++] *)
Definition bumpScore (winner : mark) (s : scoreBoard) : scoreBoard :=
  match winner with
  | X => {| scoreX := scoreX s + 1; scoreO := scoreO s; draws := draws s |}
  | O => {| scoreX := scoreX s; scoreO := scoreO s + 1; draws := draws s |}
  | Empty => s
  end.

Definition handleWin (winner : mark) (pattern : nat * nat * nat)
    (st : gameState) : gameState :=
  {| board_ := board_ st;
     currentPlayer := currentPlayer st;
     gameMode := gameMode st;
     scores := bumpScore winner (scores st);
     winningLine := Some pattern;
     moveHistory := moveHistory st;
     isProcessing := isProcessing st;
     gameActive := Some false |}.

(** [handleDraw] is defined by the script and called from nowhere. *)
Definition handleDraw (st : gameState) : gameState :=
  {| board_ := board_ st;
     currentPlayer := currentPlayer st;
     gameMode := gameMode st;
     scores := {| scoreX := scoreX (scores st); scoreO := scoreO (scores st);
                  draws := draws (scores st) + 1 |};
     winningLine := winningLine st;
     moveHistory := moveHistory st;
     isProcessing := isProcessing st;
     gameActive := Some false |}.

(** The scan of [checkGameStatus]: the first pattern whose three cells hold
    the same non-empty mark, with that mark. *)
Fixpoint findWin (b : board) (ps : list (nat * nat * nat))
    : option (mark * (nat * nat * nat)) :=
  match ps with
  | [] => None
  | p :: ps' =>
      match AI.lineMark b p with
      | Some m => Some (m, p)
      | None => findWin b ps'
      end
  end.

(** [checkGameStatus()]: [true] after calling [handleWin], else [false]. *)
Definition checkGameStatus (st : gameState) : bool * gameState :=
  match findWin (board_ st) winPatterns with
  | Some (winner, pattern) => (true, handleWin winner pattern st)
  | None => (false, st)
  end.

(** The outcome that a call of [checkGameStatus] reports to its caller:
    [true] together with [handleWin(winner, pattern)] is a win, [false] is
    "game continues".  There is no third answer. *)
Inductive Outcome : Type :=
| InProgress
| Win (winner : mark) (line : nat * nat * nat)
| Draw.

Definition checkOutcome (st : gameState) : Outcome :=
  match checkGameStatus st with
  | (true, st') =>
      match findWin (board_ st) winPatterns with
      | Some (winner, pattern) => Win winner pattern
      | None => InProgress
      end
  | (false, _) => InProgress
  end.

Definition resetGame (st : gameState) : gameState :=
  {| board_ := [Empty; Empty; Empty; Empty; Empty; Empty; Empty; Empty; Empty];
     currentPlayer := X;
     gameMode := gameMode st;
     scores := scores st;
     winningLine := None;
     moveHistory := [];
     isProcessing := isProcessing st;
     gameActive := Some true |}.

(** [gameState.board[index]] for the index parsed from the clicked cell:
    [undefined] outside the array. *)
Definition cellAt (b : board) (index : Z) : option mark :=
  if 0 <=? index then b !! Z.to_nat index else None.

Definition withProcessing (p : bool) (st : gameState) : gameState :=
  {| board_ := board_ st;
     currentPlayer := currentPlayer st;
     gameMode := gameMode st;
     scores := scores st;
     winningLine := winningLine st;
     moveHistory := moveHistory st;
     isProcessing := p;
     gameActive := gameActive st |}.

Definition aiToMove (st : gameState) : bool :=
  bool_decide (gameMode st = ModeAI) && bool_decide (currentPlayer st = O).

(** [handleCellClick(event)] for a click on the cell [index].  The result
    is how the call completes, the state it leaves, and whether it has
    scheduled the timer that plays the computer's move. *)
Definition handleCellClick (index : Z) (st : gameState)
    : completion unit * gameState * bool :=
  if isProcessing st then (Return tt, st, false)
  else if negb (bool_decide (cellAt (board_ st) index = Some Empty))
  then (Return tt, st, false)
  else if aiToMove st then (Return tt, st, false)
  else
    let st1 := makeMove (Z.to_nat index) st in
    let '(ended, st2) := checkGameStatus st1 in
    if ended then (Return tt, st2, false)
    else if aiToMove st2 then (Return tt, withProcessing true st2, true)
    else (Return tt, st2, false).

Definition withBoard (b : board) (st : gameState) : gameState :=
  {| board_ := b;
     currentPlayer := currentPlayer st;
     gameMode := gameMode st;
     scores := scores st;
     winningLine := winningLine st;
     moveHistory := moveHistory st;
     isProcessing := isProcessing st;
     gameActive := gameActive st |}.

(** The timer callback scheduled by [handleCellClick]. *)
Definition aiTurn (fuel : nat) (st : gameState) : option gameState :=
  match AI.getBestMove ai fuel (board_ st) with
  | None => None
  | Some (aiMove, b') =>
      let st := withBoard b' st in
      let st :=
        if negb (aiMove =? -1) && bool_decide (cellAt (board_ st) aiMove = Some Empty)
        then snd (checkGameStatus (makeMove (Z.to_nat aiMove) st))
        else st in
      Some (withProcessing false st)
  end.

(** Number of cells that are not [''] *)
Definition occupied (b : board) : nat :=
  length (filter (fun c => c <> Empty) b).

(** [moves] played in order by [makeMove]. *)
Fixpoint makeMoves (moves : list nat) (st : gameState) : gameState :=
  match moves with
  | [] => st
  | i :: rest => makeMoves rest (makeMove i st)
  end.

(** Each call of the sequence targets a cell that is in range and empty at
    the time of the call. *)
Fixpoint validMoves (moves : list nat) (st : gameState) : Prop :=
  match moves with
  | [] => True
  | i :: rest => board_ st !! i = Some Empty /\ validMoves rest (makeMove i st)
  end.

(** [setGameMode(mode)]: sets the mode, then starts a new game. *)
Definition setGameMode (m : mode) (st : gameState) : gameState :=
  resetGame
    {| board_ := board_ st;
       currentPlayer := currentPlayer st;
       gameMode := m;
       scores := scores st;
       winningLine := winningLine st;
       moveHistory := moveHistory st;
       isProcessing := isProcessing st;
       gameActive := gameActive st |}.

(** [resetScores()]; [confirmed] is the answer to its [confirm] dialog. *)
Definition resetScores (confirmed : bool) (st : gameState) : gameState :=
  if confirmed then
    {| board_ := board_ st;
       currentPlayer := currentPlayer st;
       gameMode := gameMode st;
       scores := {| scoreX := 0; scoreO := 0; draws := 0 |};
       winningLine := winningLine st;
       moveHistory := moveHistory st;
       isProcessing := isProcessing st;
       gameActive := gameActive st |}
  else st.

(** [updateOldestMoveIndicator()], called at the end of [makeMove]: the
    cell that carries the class ['oldest'] afterwards, if any. *)
Definition oldestIndicator (st : gameState) : option nat :=
  if (8 <=? length (moveHistory st))%nat
  then index <$> head (moveHistory st)
  else None.

(** The page while it runs: the game state and the number of timers set by
    [handleCellClick] that have not fired yet. *)
Record world : Type := {
  game : gameState;
  pendingTimers : nat
}.

(** [loadScores()], called by [init]: [savedScores] is the item that
    [saveScores] left in the local storage, if there is one. *)
Definition loadScores (savedScores : option scoreBoard) (st : gameState) : gameState :=
  match savedScores with
  | Some s =>
      {| board_ := board_ st;
         currentPlayer := currentPlayer st;
         gameMode := gameMode st;
         scores := s;
         winningLine := winningLine st;
         moveHistory := moveHistory st;
         isProcessing := isProcessing st;
         gameActive := gameActive st |}
  | None => st
  end.

(** The page once [init] has run. *)
Definition loadedWorld (savedScores : option scoreBoard) : world :=
  {| game := loadScores savedScores initialState; pendingTimers := 0 |}.

(** One event of the page: a click on a cell, a pending timer firing, or
    one of the three buttons.  Handlers run to completion, one at a time. *)
Inductive step (fuel : nat) : world -> world -> Prop :=
| step_click (w : world) (index : Z) :
    step fuel w
      {| game := snd (fst (handleCellClick index (game w)));
         pendingTimers :=
           if snd (handleCellClick index (game w))
           then S (pendingTimers w) else pendingTimers w |}
| step_timer (w : world) (n : nat) (st' : gameState) :
    pendingTimers w = S n ->
    aiTurn fuel (game w) = Some st' ->
    step fuel w {| game := st'; pendingTimers := n |}
| step_newGame (w : world) :
    step fuel w {| game := resetGame (game w); pendingTimers := pendingTimers w |}
| step_setGameMode (w : world) (m : mode) :
    step fuel w {| game := setGameMode m (game w); pendingTimers := pendingTimers w |}
| step_resetScores (w : world) (confirmed : bool) :
    step fuel w {| game := resetScores confirmed (game w);
                   pendingTimers := pendingTimers w |}.

(** The worlds that the page can be in after it has loaded. *)
Inductive running (fuel : nat) (savedScores : option scoreBoard) : world -> Prop :=
| running_init : running fuel savedScores (loadedWorld savedScores)
| running_step (w w' : world) :
    running fuel savedScores w -> step fuel w w' -> running fuel savedScores w'.

End Game.

Definition emptyBoard : board := replicate 9 Empty.

(** * Vocabulary of the properties *)

(** A score that is an integer. *)
Definition finite (s : num) : Prop := exists z, s = Fin z.

(** The number of empty cells the loops can still fill. *)
Definition remaining (b : board) : nat := length (AI.emptyCells b).

(** Both marks of the players are real marks. *)
Definition properMarks (self : AI.TicTacToeAI) : Prop :=
  AI.aiPlayer self <> Empty /\ AI.humanPlayer self <> Empty.

(** What a call of the search is expected to do on the board [b]: return
    a score and leave [b] as it was; on a nine-cell board the score is an
    integer. *)
Definition returnsOn (call : M num) (b : board) : Prop :=
  exists s, call b = Some (s, b) /\ (length b = 9%nat -> finite s).

(** A call that leaves the board as it found it, whenever it returns. *)
Definition restores {A} (call : M A) : Prop :=
  forall (b : board) r b', call b = Some (r, b') -> b' = b.

(** Whatever [call] returns, [call'] returns as well. *)
Definition extends {A} (call call' : M A) : Prop :=
  forall (b : board) r, call b = Some r -> call' b = Some r.

(** The score that [getBestMove] gives to the cell [i]: the result of
    [this.minimax(board, 0, false, -Infinity, Infinity)] after placing the
    computer's mark on [i]. *)
Definition cellScore (self : AI.TicTacToeAI) (fuel : nat) (b : board) (i : nat) : option num :=
  fst <$> AI.minimax self fuel 0 false NegInf PosInf (<[i:=AI.aiPlayer self]> b).

(** The scan without the board: [sc i] is the score of cell [i]. *)
Fixpoint scan (sc : nat -> num) (b : board) (idxs : list nat)
    (bestScore : num) (bestMove : Z) : Z :=
  match idxs with
  | [] => bestMove
  | i :: rest =>
      if isEmptyAt b i then
        if num_gtb (sc i) bestScore
        then scan sc b rest (sc i) (Z.of_nat i)
        else scan sc b rest bestScore bestMove
      else scan sc b rest bestScore bestMove
  end.

(** Placing [m] on the empty cell [j] makes [checkWinner] answer [m]. *)
Definition winsAt (b : board) (m : mark) (j : nat) : bool :=
  isEmptyAt b j && bool_decide (AI.checkWinner (<[j:=m]> b) = Some (AI.Winner m)).

(** The three cells of the pattern [p] all hold [m]. *)
Definition holdsLine (b : board) (m : mark) (p : nat * nat * nat) : Prop :=
  let '(x, y, z) := p in
  b !! x = Some m /\ b !! y = Some m /\ b !! z = Some m.

(** The mark [m] fills one of the eight lines. *)
Definition hasLine (b : board) (m : mark) : Prop :=
  m <> Empty /\ exists p, p ∈ AI.winPatterns /\ holdsLine b m p.

(** No line is filled by either mark. *)
Definition noLine (b : board) : Prop := forall m, ~ hasLine b m.

(** The cell [i] lies on the pattern [p]. *)
Definition onLine (i : nat) (p : nat * nat * nat) : Prop :=
  let '(x, y, z) := p in i = x \/ i = y \/ i = z.

(** The empty cell [i] completes a line for [m]: with [m] placed on it, a
    line through [i] is filled by [m]. *)
Definition completesLine (b : board) (m : mark) (i : nat) : Prop :=
  b !! i = Some Empty /\
  exists p, p ∈ AI.winPatterns /\ onLine i p /\ holdsLine (<[i:=m]> b) m p.

(** [completesLine], computed. *)
Definition completesLineb (b : board) (m : mark) (i : nat) : bool :=
  isEmptyAt b i &&
  existsb (fun p : nat * nat * nat =>
             let '(x, y, z) := p in
             (bool_decide (i = x) || bool_decide (i = y) || bool_decide (i = z)) &&
             (bool_decide (<[i:=m]> b !! x = Some m) &&
              bool_decide (<[i:=m]> b !! y = Some m) &&
              bool_decide (<[i:=m]> b !! z = Some m)))
          AI.winPatterns.

(** The history entries written by playing [moves] in turn, [p] first. *)
Fixpoint records (moves : list nat) (p : mark) : list Game.move :=
  match moves with
  | [] => []
  | i :: rest => {| Game.index := i; Game.player := p |} :: records rest (Game.switchPlayer p)
  end.

(** The state invariant of the engine: nine cells, one history entry per
    mark on the board, and a real mark to play. *)
Definition consistent (st : Game.gameState) : Prop :=
  length (Game.board_ st) = 9%nat /\
  length (Game.moveHistory st) = Game.occupied (Game.board_ st) /\
  Game.currentPlayer st <> Empty.

(** The positions of a game that starts on the empty board, in which the
    opponent moves first, on any empty cell, and the computer answers with
    the cell that [getBestMove] returns.  The flag tells whether the
    opponent is to move.  Nobody moves once [checkWinner] has answered. *)
Inductive reachable (self : AI.TicTacToeAI) (fuel : nat) : bool -> board -> Prop :=
| reach_start :
    reachable self fuel true emptyBoard
| reach_opponent (b : board) (i : nat) :
    reachable self fuel true b ->
    AI.checkWinner b = None ->
    b !! i = Some Empty ->
    reachable self fuel false (<[i := AI.humanPlayer self]> b)
| reach_computer (b b' : board) (k : nat) :
    reachable self fuel false b ->
    AI.checkWinner b = None ->
    AI.getBestMove self fuel b = Some (Z.of_nat k, b') ->
    reachable self fuel true (<[k := AI.aiPlayer self]> b').

(** The same games told by the rules alone: play goes on while no line is
    filled, the opponent takes any empty cell, and the computer answers
    with the cell that [getBestMove] returns, if it returns one. *)
Inductive played (self : AI.TicTacToeAI) (fuel : nat) : bool -> board -> Prop :=
| played_start :
    played self fuel true emptyBoard
| played_opponent (b : board) (i : nat) :
    played self fuel true b ->
    noLine b ->
    b !! i = Some Empty ->
    played self fuel false (<[i := AI.humanPlayer self]> b)
| played_computer (b b' : board) (k : nat) :
    played self fuel false b ->
    noLine b ->
    AI.getBestMove self fuel b = Some (Z.of_nat k, b') ->
    played self fuel true (<[k := AI.aiPlayer self]> b').

(** A check of every game from the position [b], at most [n] moves deep:
    no position met is won by the opponent, and the computer always has a
    move to answer with. *)
Fixpoint safe (self : AI.TicTacToeAI) (fuel : nat) (n : nat)
    (opponentToMove : bool) (b : board) : bool :=
  match n with
  | 0%nat => false
  | S n' =>
      match AI.checkWinner b with
      | Some r => negb (bool_decide (r = AI.Winner (AI.humanPlayer self)))
      | None =>
          if opponentToMove then
            forallb (fun i =>
                       if isEmptyAt b i
                       then safe self fuel n' false (<[i := AI.humanPlayer self]> b)
                       else true)
                    AI.cells
          else
            match AI.getBestMove self fuel b with
            | Some (m, b') =>
                (0 <=? m) && safe self fuel n' true (<[Z.to_nat m := AI.aiPlayer self]> b')
            | None => false
            end
      end
  end.

(** The history accounts for the board: nine cells, as many records as
    marks, each record naming a cell that holds the record's mark, and a
    real mark to play. *)
Definition coherent (st : Game.gameState) : Prop :=
  consistent st /\
  forall r, r ∈ Game.moveHistory st ->
    Game.player r <> Empty /\ Game.board_ st !! Game.index r = Some (Game.player r).

(** The lock of the page is set exactly while one timer is pending. *)
Definition locked (w : Game.world) : Prop :=
  (Game.pendingTimers w <= 1)%nat /\
  (Game.isProcessing (Game.game w) = true <-> Game.pendingTimers w = 1%nat).

(** Every mark on the board has a record in the history. *)
Definition recorded (st : Game.gameState) : Prop :=
  forall i m, Game.board_ st !! i = Some m -> m <> Empty ->
    exists r, r ∈ Game.moveHistory st /\ Game.index r = i.

(** The indices of the marked cells of [b], counted from [a]. *)
Fixpoint markedFrom (a : nat) (b : board) : list nat :=
  match b with
  | [] => []
  | c :: rest =>
      if decide (c <> Empty) then a :: markedFrom (S a) rest
      else markedFrom (S a) rest
  end.

(** The order of the scores. *)
Notation "a ≼ b" := (num_leb a b = true) (at level 70).
Notation "a ≺ b" := (num_leb b a = false) (at level 70).

(** The greatest of the values [g i] over the empty cells [i] of [idxs],
    and of [acc]: the maximizing loop of [minimax] without its pruning. *)
Fixpoint maxOver (g : nat -> num) (b : board) (idxs : list nat) (acc : num) : num :=
  match idxs with
  | [] => acc
  | i :: rest =>
      if isEmptyAt b i then maxOver g b rest (num_max (g i) acc)
      else maxOver g b rest acc
  end.

(** The least of them: the minimizing loop without its pruning. *)
Fixpoint minOver (g : nat -> num) (b : board) (idxs : list nat) (acc : num) : num :=
  match idxs with
  | [] => acc
  | i :: rest =>
      if isEmptyAt b i then minOver g b rest (num_min (g i) acc)
      else minOver g b rest acc
  end.

(** The minimax value by exhaustive search: [minimax] with the windows,
    the running bounds and the [break]s left out.  This is the reference
    that the pruned search is compared with; the value at fuel 0 is never
    used. *)
Fixpoint exhaustive (self : AI.TicTacToeAI) (fuel : nat) (depth : Z)
    (isMaximizing : bool) (b : board) : num :=
  match fuel with
  | 0%nat => Fin 0
  | S fuel' =>
      match AI.checkWinner b with
      | Some r => AI.terminalScore self r depth
      | None =>
          if isMaximizing
          then maxOver (fun i => exhaustive self fuel' (depth + 1) false
                                   (<[i := AI.aiPlayer self]> b))
                 b AI.cells NegInf
          else minOver (fun i => exhaustive self fuel' (depth + 1) true
                                   (<[i := AI.humanPlayer self]> b))
                 b AI.cells PosInf
      end
  end.

(** What a search with the window [(alpha, beta)] may return for a
    position of value [v]: the value itself when the result lies inside the
    window, an upper bound of it when the result is at most [alpha], a
    lower bound when it is at least [beta]. *)
Definition failSoft (alpha beta s v : num) : Prop :=
  (num_leb s alpha = true -> num_leb v s = true) /\
  (num_leb beta s = true -> num_leb s v = true) /\
  (num_leb s alpha = false -> num_leb beta s = false -> s = v).

(** An integer score between [lo] and [hi]. *)
Definition within (lo hi : Z) (s : num) : Prop := exists z, s = Fin z /\ lo <= z <= hi.

(** A click and, when it sets the timer, the timer's callback after it:
    one exchange of moves against the computer. *)
Definition playRound (fuel : nat) (index : Z) (st : Game.gameState)
    : option Game.gameState :=
  let '(_, st1, timer) := Game.handleCellClick index st in
  if timer : bool then Game.aiTurn fuel st1 else Some st1.

(** A game against the computer in which X is to move and nobody has won:
    the board is a position of [reachable]. *)
Definition underway (fuel : nat) (st : Game.gameState) : Prop :=
  Game.gameMode st = Game.ModeAI /\ Game.isProcessing st = false /\
  Game.currentPlayer st = X /\ coherent st /\
  reachable Game.ai fuel true (Game.board_ st) /\
  AI.checkWinner (Game.board_ st) = None.

(** * Properties *)

(** ** Numbers *)

Lemma num_max_finite a b : finite a -> b <> PosInf -> finite (num_max a b).
Proof.
  intros [x ->] Hb. unfold num_max, num_leb.
  destruct b as [|y|]; [eexists; reflexivity| |congruence].
  destruct (x <=? y); eexists; reflexivity.
Qed.

Lemma num_min_finite a b : finite a -> b <> NegInf -> finite (num_min a b).
Proof.
  intros [x ->] Hb. unfold num_min, num_leb.
  destruct b as [|y|]; [congruence| |eexists; reflexivity].
  destruct (x <=? y); eexists; reflexivity.
Qed.

Lemma finite_not_pos s : finite s -> s <> PosInf.
Proof. intros [z ->]; discriminate. Qed.

Lemma finite_not_neg s : finite s -> s <> NegInf.
Proof. intros [z ->]; discriminate. Qed.

Ltac num_cases :=
  unfold num_gtb, num_leb in *;
  repeat match goal with x : num |- _ => destruct x end;
  simpl in *; try congruence; try reflexivity;
  rewrite ?negb_true_iff, ?negb_false_iff, ?Z.leb_le, ?Z.leb_gt in *;
  try lia.

Lemma num_gtb_false a b : num_gtb a b = false -> num_leb a b = true.
Proof. unfold num_gtb. by intros ->%negb_false_iff. Qed.

Lemma num_le_lt_trans a b c :
  num_leb a b = true -> num_gtb c b = true -> num_gtb c a = true.
Proof. intros H1 H2. num_cases. Qed.

Lemma num_lt_trans a b c :
  num_gtb b a = true -> num_gtb c b = true -> num_gtb c a = true.
Proof. intros H1 H2. num_cases. Qed.

Lemma num_le_trans a b c :
  num_leb a b = true -> num_leb b c = true -> num_leb a c = true.
Proof. intros H1 H2. num_cases. Qed.

Lemma num_lt_le a b : num_gtb b a = true -> num_leb a b = true.
Proof. intros H. num_cases. Qed.

Lemma num_gtb_fin x y : num_gtb (Fin x) (Fin y) = true <-> y < x.
Proof. unfold num_gtb, num_leb. rewrite negb_true_iff, Z.leb_gt. reflexivity. Qed.

Lemma num_leb_fin x y : num_leb (Fin x) (Fin y) = true <-> x <= y.
Proof. unfold num_leb. apply Z.leb_le. Qed.

(** ** Placing a mark and taking it back *)

Lemma isEmptyAt_true (b : board) i : isEmptyAt b i = true <-> b !! i = Some Empty.
Proof.
  unfold isEmptyAt. destruct (b !! i) as [[]|]; split; congruence.
Qed.

Lemma place_undo (b : board) i m :
  isEmptyAt b i = true -> <[i:=Empty]> (<[i:=m]> b) = b.
Proof.
  intros H%isEmptyAt_true.
  rewrite list_insert_insert_eq. by apply list_insert_id.
Qed.

Lemma isEmptyAt_place (b : board) i j m :
  m <> Empty -> isEmptyAt (<[i:=m]> b) j = true -> isEmptyAt b j = true /\ j <> i.
Proof.
  intros Hm H%isEmptyAt_true. rewrite isEmptyAt_true.
  destruct (decide (i = j)) as [->|Hne].
  - destruct (decide (j < length b)%nat) as [Hlt|Hge].
    + rewrite list_lookup_insert_eq in H by done. congruence.
    + rewrite list_insert_ge in H by lia.
      apply lookup_lt_Some in H. lia.
  - rewrite list_lookup_insert_ne in H by done. split; [done|congruence].
Qed.

Lemma remaining_place (b : board) i m :
  m <> Empty -> (i < 9)%nat -> isEmptyAt b i = true ->
  (remaining (<[i:=m]> b) < remaining b)%nat.
Proof.
  intros Hm Hi He. unfold remaining, AI.emptyCells.
  rewrite <- (list_filter_filter_l
    (fun j => isEmptyAt (<[i:=m]> b) j = true) (fun j => isEmptyAt b j = true)).
  - apply length_filter_lt with i.
    + apply list_elem_of_filter. split; [done|].
      unfold AI.cells. apply elem_of_seq. lia.
    + intros H. apply isEmptyAt_place in H; [|done]. by destruct H.
  - intros j H. by apply isEmptyAt_place in H as [? _].
Qed.

(** ** The search: one step of each loop *)

Section SearchFacts.

Variable self : AI.TicTacToeAI.

Abbreviation aiMark := (AI.aiPlayer self).
Abbreviation humanMark := (AI.humanPlayer self).

Lemma maxLoop_cons rec i rest maxScore alpha beta (b : board) :
  AI.maxLoop self rec (i :: rest) maxScore alpha beta b =
  if isEmptyAt b i then
    match rec alpha beta (<[i:=aiMark]> b) with
    | Some (score, b1) =>
        if num_leb beta (num_max alpha score)
        then Some (num_max score maxScore, <[i:=Empty]> b1)
        else AI.maxLoop self rec rest (num_max score maxScore)
               (num_max alpha score) beta (<[i:=Empty]> b1)
    | None => None
    end
  else AI.maxLoop self rec rest maxScore alpha beta b.
Proof.
  cbn [AI.maxLoop]. unfold mbind, M_bind, cellIsEmpty, setCell, mret, M_ret.
  destruct (isEmptyAt b i); [|reflexivity].
  destruct (rec alpha beta _) as [[score b1]|]; [|reflexivity].
  destruct (num_leb beta _); reflexivity.
Qed.

Lemma minLoop_cons rec i rest minScore alpha beta (b : board) :
  AI.minLoop self rec (i :: rest) minScore alpha beta b =
  if isEmptyAt b i then
    match rec alpha beta (<[i:=humanMark]> b) with
    | Some (score, b1) =>
        if num_leb (num_min beta score) alpha
        then Some (num_min score minScore, <[i:=Empty]> b1)
        else AI.minLoop self rec rest (num_min score minScore)
               alpha (num_min beta score) (<[i:=Empty]> b1)
    | None => None
    end
  else AI.minLoop self rec rest minScore alpha beta b.
Proof.
  cbn [AI.minLoop]. unfold mbind, M_bind, cellIsEmpty, setCell, mret, M_ret.
  destruct (isEmptyAt b i); [|reflexivity].
  destruct (rec alpha beta _) as [[score b1]|]; [|reflexivity].
  destruct (num_leb _ alpha); reflexivity.
Qed.

Lemma bestLoop_cons rec i rest bestScore bestMove (b : board) :
  AI.bestLoop self rec (i :: rest) bestScore bestMove b =
  if isEmptyAt b i then
    match rec (<[i:=aiMark]> b) with
    | Some (score, b1) =>
        if num_gtb score bestScore
        then AI.bestLoop self rec rest score (Z.of_nat i) (<[i:=Empty]> b1)
        else AI.bestLoop self rec rest bestScore bestMove (<[i:=Empty]> b1)
    | None => None
    end
  else AI.bestLoop self rec rest bestScore bestMove b.
Proof.
  cbn [AI.bestLoop]. unfold mbind, M_bind, cellIsEmpty, setCell, mret, M_ret.
  destruct (isEmptyAt b i); [|reflexivity].
  destruct (rec _) as [[score b1]|]; [|reflexivity].
  destruct (num_gtb score bestScore); reflexivity.
Qed.

Lemma minimax_step fuel depth isMax alpha beta (b : board) :
  AI.minimax self (S fuel) depth isMax alpha beta b =
  match AI.checkWinner b with
  | Some r => Some (AI.terminalScore self r depth, b)
  | None =>
      if isMax
      then AI.maxLoop self (AI.minimax self fuel (depth + 1) false)
             AI.cells NegInf alpha beta b
      else AI.minLoop self (AI.minimax self fuel (depth + 1) true)
             AI.cells PosInf alpha beta b
  end.
Proof.
  cbn [AI.minimax]. unfold mbind, M_bind, inspect, mret, M_ret.
  destruct (AI.checkWinner b); [reflexivity|]. by destruct isMax.
Qed.

Lemma probeLoop_cons m i rest (b : board) :
  AI.probeLoop m (i :: rest) b =
  if isEmptyAt b i then
    if bool_decide (AI.checkWinner (<[i:=m]> b) = Some (AI.Winner m))
    then Some (Some i, <[i:=Empty]> (<[i:=m]> b))
    else AI.probeLoop m rest (<[i:=Empty]> (<[i:=m]> b))
  else AI.probeLoop m rest b.
Proof.
  cbn [AI.probeLoop]. unfold mbind, M_bind, cellIsEmpty, setCell, inspect, mret, M_ret.
  destruct (isEmptyAt b i); [|reflexivity].
  destruct (bool_decide _); reflexivity.
Qed.

(** ** The search returns, restores the board, and scores in the integers *)

Lemma maxLoop_returns rec (b : board) idxs :
  (forall i alpha beta, i ∈ idxs -> isEmptyAt b i = true ->
     returnsOn (rec alpha beta) (<[i:=aiMark]> b)) ->
  forall maxScore alpha beta,
  exists s, AI.maxLoop self rec idxs maxScore alpha beta b = Some (s, b) /\
    (length b = 9%nat -> maxScore <> PosInf ->
     s <> PosInf /\
     (finite maxScore \/ (exists i, i ∈ idxs /\ isEmptyAt b i = true) -> finite s)).
Proof.
  induction idxs as [|i rest IH]; intros Hrec maxScore alpha beta.
  - exists maxScore. split; [reflexivity|]. intros _ Hms. split; [done|].
    intros [H|(i & Hi & _)]; [done|]. by apply elem_of_nil in Hi.
  - rewrite maxLoop_cons.
    assert (Hrest : forall j alpha beta, j ∈ rest -> isEmptyAt b j = true ->
              returnsOn (rec alpha beta) (<[j:=aiMark]> b)).
    { intros j a' b' Hj. apply Hrec. by right. }
    destruct (isEmptyAt b i) eqn:He.
    + destruct (Hrec i alpha beta) as (score & Hcall & Hfin); [by left|done|].
      rewrite Hcall, place_undo by done.
      rewrite length_insert in Hfin.
      assert (Hne : length b = 9%nat -> maxScore <> PosInf ->
                num_max score maxScore <> PosInf).
      { intros Hlen Hms. unfold num_max. destruct (num_leb score maxScore) eqn:Hle; [done|].
        by apply finite_not_pos, Hfin. }
      destruct (num_leb beta (num_max alpha score)).
      * eexists. split; [reflexivity|]. intros Hlen Hms. split; [by apply Hne|].
        intros _. by apply num_max_finite; [apply Hfin|].
      * destruct (IH Hrest (num_max score maxScore) (num_max alpha score) beta)
          as (s & Hs & Hs2).
        exists s. split; [done|]. intros Hlen Hms.
        destruct (Hs2 Hlen (Hne Hlen Hms)) as [Hs3 Hs4]. split; [done|].
        intros _. apply Hs4. left.
        by apply num_max_finite; [apply Hfin|].
    + destruct (IH Hrest maxScore alpha beta) as (s & Hs & Hs2).
      exists s. split; [done|]. intros Hlen Hms.
      destruct (Hs2 Hlen Hms) as [Hs3 Hs4]. split; [done|].
      intros [H|(j & Hj & Hje)]; apply Hs4; auto.
      right. exists j. split; [|done].
      apply elem_of_cons in Hj as [->|Hj]; [congruence|done].
Qed.

Lemma minLoop_returns rec (b : board) idxs :
  (forall i alpha beta, i ∈ idxs -> isEmptyAt b i = true ->
     returnsOn (rec alpha beta) (<[i:=humanMark]> b)) ->
  forall minScore alpha beta,
  exists s, AI.minLoop self rec idxs minScore alpha beta b = Some (s, b) /\
    (length b = 9%nat -> minScore <> NegInf ->
     s <> NegInf /\
     (finite minScore \/ (exists i, i ∈ idxs /\ isEmptyAt b i = true) -> finite s)).
Proof.
  induction idxs as [|i rest IH]; intros Hrec minScore alpha beta.
  - exists minScore. split; [reflexivity|]. intros _ Hms. split; [done|].
    intros [H|(i & Hi & _)]; [done|]. by apply elem_of_nil in Hi.
  - rewrite minLoop_cons.
    assert (Hrest : forall j alpha beta, j ∈ rest -> isEmptyAt b j = true ->
              returnsOn (rec alpha beta) (<[j:=humanMark]> b)).
    { intros j a' b' Hj. apply Hrec. by right. }
    destruct (isEmptyAt b i) eqn:He.
    + destruct (Hrec i alpha beta) as (score & Hcall & Hfin); [by left|done|].
      rewrite Hcall, place_undo by done.
      rewrite length_insert in Hfin.
      assert (Hne : length b = 9%nat -> minScore <> NegInf ->
                num_min score minScore <> NegInf).
      { intros Hlen Hms. unfold num_min. destruct (num_leb score minScore) eqn:Hle; [|done].
        by apply finite_not_neg, Hfin. }
      destruct (num_leb (num_min beta score) alpha).
      * eexists. split; [reflexivity|]. intros Hlen Hms. split; [by apply Hne|].
        intros _. by apply num_min_finite; [apply Hfin|].
      * destruct (IH Hrest (num_min score minScore) alpha (num_min beta score))
          as (s & Hs & Hs2).
        exists s. split; [done|]. intros Hlen Hms.
        destruct (Hs2 Hlen (Hne Hlen Hms)) as [Hs3 Hs4]. split; [done|].
        intros _. apply Hs4. left.
        by apply num_min_finite; [apply Hfin|].
    + destruct (IH Hrest minScore alpha beta) as (s & Hs & Hs2).
      exists s. split; [done|]. intros Hlen Hms.
      destruct (Hs2 Hlen Hms) as [Hs3 Hs4]. split; [done|].
      intros [H|(j & Hj & Hje)]; apply Hs4; auto.
      right. exists j. split; [|done].
      apply elem_of_cons in Hj as [->|Hj]; [congruence|done].
Qed.

Lemma terminalScore_finite r depth : finite (AI.terminalScore self r depth).
Proof.
  unfold AI.terminalScore. repeat case_bool_decide; eexists; reflexivity.
Qed.

Lemma cells_lt i : i ∈ AI.cells <-> (i < 9)%nat.
Proof. unfold AI.cells. rewrite elem_of_seq. lia. Qed.

(** A nine-cell board on which [checkWinner] answers [null] has an empty
    cell among those the loops visit. *)
Lemma checkWinner_None_empty (b : board) :
  AI.checkWinner b = None -> length b = 9%nat ->
  exists i, i ∈ AI.cells /\ isEmptyAt b i = true.
Proof.
  unfold AI.checkWinner. intros H Hlen.
  destruct (AI.firstLine b AI.winPatterns); [discriminate|].
  destruct (forallb _ b) eqn:Hall; [discriminate|].
  assert (Hex : exists c, c ∈ b /\ c = Empty).
  { clear -Hall. induction b as [|c b IH]; [discriminate|].
    simpl in Hall. apply andb_false_iff in Hall as [Hc|Hb].
    - exists c. split; [left|]. apply negb_false_iff in Hc.
      by apply bool_decide_eq_true in Hc.
    - destruct (IH Hb) as (c' & Hin & Hc'). exists c'. split; [by right|done]. }
  destruct Hex as (c & Hin & ->).
  apply list_elem_of_lookup in Hin as [i Hi].
  exists i. split.
  - apply cells_lt. apply lookup_lt_Some in Hi. lia.
  - by apply isEmptyAt_true.
Qed.

Lemma minimax_returns fuel : properMarks self ->
  forall (b : board) depth isMax alpha beta,
  (remaining b < fuel)%nat ->
  returnsOn (AI.minimax self fuel depth isMax alpha beta) b.
Proof.
  intros [Hai Hhu]. induction fuel as [|fuel IH]; intros b depth isMax alpha beta Hfuel.
  { lia. }
  unfold returnsOn. rewrite minimax_step.
  destruct (AI.checkWinner b) as [r|] eqn:Hw.
  { eexists. split; [reflexivity|]. intros _. apply terminalScore_finite. }
  destruct isMax.
  - destruct (maxLoop_returns (AI.minimax self fuel (depth + 1) false) b AI.cells)
      with (maxScore := NegInf) (alpha := alpha) (beta := beta) as (s & Hs & Hfin).
    { intros i a' b' Hi He. apply IH.
      apply cells_lt in Hi. pose proof (remaining_place b i aiMark Hai Hi He). lia. }
    exists s. split; [done|]. intros Hlen.
    apply Hfin; [done|done|]. right. by apply checkWinner_None_empty.
  - destruct (minLoop_returns (AI.minimax self fuel (depth + 1) true) b AI.cells)
      with (minScore := PosInf) (alpha := alpha) (beta := beta) as (s & Hs & Hfin).
    { intros i a' b' Hi He. apply IH.
      apply cells_lt in Hi. pose proof (remaining_place b i humanMark Hhu Hi He). lia. }
    exists s. split; [done|]. intros Hlen.
    apply Hfin; [done|done|]. right. by apply checkWinner_None_empty.
Qed.

Lemma remaining_le_9 (b : board) : (remaining b <= 9)%nat.
Proof.
  unfold remaining, AI.emptyCells.
  etransitivity; [apply length_filter|]. reflexivity.
Qed.

(** ** The scan of [getBestMove] *)

Lemma bestLoop_scan rec sc (b : board) idxs :
  (forall i, i ∈ idxs -> isEmptyAt b i = true ->
     rec (<[i:=aiMark]> b) = Some (sc i, <[i:=aiMark]> b)) ->
  forall bestScore bestMove,
  AI.bestLoop self rec idxs bestScore bestMove b =
  Some (scan sc b idxs bestScore bestMove, b).
Proof.
  induction idxs as [|i rest IH]; intros Hrec bestScore bestMove; [reflexivity|].
  rewrite bestLoop_cons. cbn [scan].
  assert (Hrest : forall j, j ∈ rest -> isEmptyAt b j = true ->
            rec (<[j:=aiMark]> b) = Some (sc j, <[j:=aiMark]> b)).
  { intros j Hj. apply Hrec. by right. }
  destruct (isEmptyAt b i) eqn:He; [|by apply IH].
  rewrite Hrec by (done || by left). rewrite place_undo by done.
  destruct (num_gtb (sc i) bestScore); by apply IH.
Qed.

(** The scan keeps the first cell whose score is strictly greater than
    everything before it and at least everything after it. *)
Lemma scan_seq sc (b : board) n : forall a bestScore bestMove,
  let r := scan sc b (seq a n) bestScore bestMove in
  (r = bestMove /\
   forall j, (a <= j < a + n)%nat -> isEmptyAt b j = true ->
     num_leb (sc j) bestScore = true) \/
  (exists k, (a <= k < a + n)%nat /\ r = Z.of_nat k /\ isEmptyAt b k = true /\
     num_gtb (sc k) bestScore = true /\
     (forall j, (a <= j < k)%nat -> isEmptyAt b j = true ->
        num_gtb (sc k) (sc j) = true) /\
     (forall j, (k < j < a + n)%nat -> isEmptyAt b j = true ->
        num_leb (sc j) (sc k) = true)).
Proof.
  induction n as [|n IH]; intros a bestScore bestMove; cbn [seq scan].
  - left. split; [reflexivity|]. intros j Hj. lia.
  - destruct (isEmptyAt b a) eqn:He.
    + destruct (num_gtb (sc a) bestScore) eqn:Hgt.
      * destruct (IH (S a) (sc a) (Z.of_nat a)) as [[Hr Hle]|(k & Hk & Hr & Hek & Hgtk & Hpre & Hpost)].
        -- right. exists a. split; [lia|]. split; [done|]. split; [done|].
           split; [done|]. split; [intros j Hj; lia|].
           intros j Hj Hej. apply Hle; [lia|done].
        -- right. exists k. split; [lia|]. split; [done|]. split; [done|].
           split; [by eapply num_lt_trans|]. split.
           ++ intros j Hj Hej. destruct (decide (j = a)) as [->|Hne]; [done|].
              apply Hpre; [lia|done].
           ++ intros j Hj Hej. apply Hpost; [lia|done].
      * apply num_gtb_false in Hgt.
        destruct (IH (S a) bestScore bestMove) as [[Hr Hle]|(k & Hk & Hr & Hek & Hgtk & Hpre & Hpost)].
        -- left. split; [done|]. intros j Hj Hej.
           destruct (decide (j = a)) as [->|Hne]; [done|]. apply Hle; [lia|done].
        -- right. exists k. split; [lia|]. split; [done|]. split; [done|].
           split; [done|]. split.
           ++ intros j Hj Hej. destruct (decide (j = a)) as [->|Hne].
              ** by eapply num_le_lt_trans.
              ** apply Hpre; [lia|done].
           ++ intros j Hj Hej. apply Hpost; [lia|done].
    + destruct (IH (S a) bestScore bestMove) as [[Hr Hle]|(k & Hk & Hr & Hek & Hgtk & Hpre & Hpost)].
      * left. split; [done|]. intros j Hj Hej.
        destruct (decide (j = a)) as [->|Hne]; [congruence|]. apply Hle; [lia|done].
      * right. exists k. split; [lia|]. split; [done|]. split; [done|].
        split; [done|]. split.
        -- intros j Hj Hej. destruct (decide (j = a)) as [->|Hne]; [congruence|].
           apply Hpre; [lia|done].
        -- intros j Hj Hej. apply Hpost; [lia|done].
Qed.

(** [getBestMove] is that scan over the scores of the empty cells. *)
Lemma getBestMove_scan fuel (b : board) : properMarks self ->
  (remaining b <= fuel)%nat ->
  exists sc,
    AI.getBestMove self fuel b = Some (scan sc b AI.cells NegInf (-1), b) /\
    forall i, (i < 9)%nat -> isEmptyAt b i = true ->
      cellScore self fuel b i = Some (sc i) /\ (length b = 9%nat -> finite (sc i)).
Proof.
  intros Hm Hfuel.
  assert (Hcall : forall i, (i < 9)%nat -> isEmptyAt b i = true ->
            returnsOn (AI.minimax self fuel 0 false NegInf PosInf) (<[i:=aiMark]> b)).
  { intros i Hi He. apply minimax_returns; [done|].
    pose proof (remaining_place b i aiMark (proj1 Hm) Hi He). lia. }
  exists (fun i => default NegInf (cellScore self fuel b i)). split.
  - unfold AI.getBestMove. apply bestLoop_scan.
    intros i Hi%cells_lt He. destruct (Hcall i Hi He) as (s & Hs & _).
    unfold cellScore. by rewrite Hs.
  - intros i Hi He. destruct (Hcall i Hi He) as (s & Hs & Hfin).
    unfold cellScore. rewrite Hs. simpl. split; [done|].
    intros Hlen. apply Hfin. by rewrite length_insert.
Qed.

(** ** Every placement of the search is undone *)

Lemma maxLoop_restores rec idxs :
  (forall alpha beta, restores (rec alpha beta)) ->
  forall maxScore alpha beta, restores (AI.maxLoop self rec idxs maxScore alpha beta).
Proof.
  intros Hrec. induction idxs as [|i rest IH]; intros maxScore alpha beta b r b' H.
  - by injection H as _ <-.
  - rewrite maxLoop_cons in H.
    destruct (isEmptyAt b i) eqn:He; [|by eapply IH].
    destruct (rec alpha beta _) as [[score b1]|] eqn:Hcall; [|discriminate].
    apply Hrec in Hcall as ->. rewrite place_undo in H by done.
    destruct (num_leb beta _); [by injection H as _ <-|by eapply IH].
Qed.

Lemma minLoop_restores rec idxs :
  (forall alpha beta, restores (rec alpha beta)) ->
  forall minScore alpha beta, restores (AI.minLoop self rec idxs minScore alpha beta).
Proof.
  intros Hrec. induction idxs as [|i rest IH]; intros minScore alpha beta b r b' H.
  - by injection H as _ <-.
  - rewrite minLoop_cons in H.
    destruct (isEmptyAt b i) eqn:He; [|by eapply IH].
    destruct (rec alpha beta _) as [[score b1]|] eqn:Hcall; [|discriminate].
    apply Hrec in Hcall as ->. rewrite place_undo in H by done.
    destruct (num_leb _ alpha); [by injection H as _ <-|by eapply IH].
Qed.

Lemma minimax_restores fuel : forall depth isMax alpha beta,
  restores (AI.minimax self fuel depth isMax alpha beta).
Proof.
  induction fuel as [|fuel IH]; intros depth isMax alpha beta b r b' H.
  { discriminate. }
  rewrite minimax_step in H.
  destruct (AI.checkWinner b); [by injection H as _ <-|].
  destruct isMax.
  - eapply maxLoop_restores; [|exact H]. intros a' b''. apply IH.
  - eapply minLoop_restores; [|exact H]. intros a' b''. apply IH.
Qed.

Lemma bestLoop_restores rec idxs : restores rec ->
  forall bestScore bestMove, restores (AI.bestLoop self rec idxs bestScore bestMove).
Proof.
  intros Hrec. induction idxs as [|i rest IH]; intros bestScore bestMove b r b' H.
  - by injection H as _ <-.
  - rewrite bestLoop_cons in H.
    destruct (isEmptyAt b i) eqn:He; [|by eapply IH].
    destruct (rec _) as [[score b1]|] eqn:Hcall; [|discriminate].
    apply Hrec in Hcall as ->. rewrite place_undo in H by done.
    destruct (num_gtb score bestScore); by eapply IH.
Qed.

(** ** The probing loops of [getMediumMove] *)

Lemma probeLoop_find m (b : board) idxs :
  AI.probeLoop m idxs b = Some (find (winsAt b m) idxs, b).
Proof.
  induction idxs as [|i rest IH]; [reflexivity|].
  rewrite probeLoop_cons. cbn [find]. unfold winsAt at 1.
  destruct (isEmptyAt b i) eqn:He; [|done].
  rewrite place_undo by done. simpl.
  destruct (bool_decide _); done.
Qed.

Lemma getMediumMove_eq r (b : board) :
  AI.getMediumMove self r b =
  Some (match find (winsAt b aiMark) AI.cells with
        | Some i => Return (Num (Z.of_nat i))
        | None =>
            match find (winsAt b humanMark) AI.cells with
            | Some i => Return (Num (Z.of_nat i))
            | None => AI.getRandomMove r b
            end
        end, b).
Proof.
  unfold AI.getMediumMove, mbind, M_bind. rewrite probeLoop_find.
  destruct (find (winsAt b aiMark) AI.cells); [reflexivity|].
  rewrite probeLoop_find.
  destruct (find (winsAt b humanMark) AI.cells); reflexivity.
Qed.

End SearchFacts.

(** ** Lines and the answers of [checkWinner] *)

Lemma lineMark_Some (b : board) p m :
  AI.lineMark b p = Some m <-> m <> Empty /\ holdsLine b m p.
Proof.
  destruct p as [[x y] z]. unfold AI.lineMark, holdsLine.
  destruct (b !! x) as [m0|] eqn:Hx.
  - destruct (truthy m0) eqn:Ht; simpl.
    + repeat case_bool_decide; simpl; split;
        try (intros [= <-]; split; [by destruct m0|done]);
        try discriminate; try (intros [_ ([= <-] & ? & ?)]; done).
    + split; [discriminate|]. intros [Hm ([= <-] & _)]. by destruct m0.
  - split; [discriminate|]. intros [_ (? & _)]. discriminate.
Qed.

Lemma lineMark_None (b : board) p :
  AI.lineMark b p = None <-> forall m, m <> Empty -> ~ holdsLine b m p.
Proof.
  split.
  - intros H m Hm Hl. assert (AI.lineMark b p = Some m) by by apply lineMark_Some.
    congruence.
  - intros H. destruct (AI.lineMark b p) as [m|] eqn:Hl; [|done].
    apply lineMark_Some in Hl as [Hm Hl]. by destruct (H m Hm).
Qed.

Lemma firstLine_Some (b : board) ps m :
  AI.firstLine b ps = Some m -> exists p, p ∈ ps /\ AI.lineMark b p = Some m.
Proof.
  induction ps as [|p ps IH]; [discriminate|]. simpl.
  destruct (AI.lineMark b p) as [m'|] eqn:Hl.
  - intros [= <-]. exists p. split; [left|done].
  - intros H. destruct (IH H) as (p' & Hin & Hp'). exists p'. split; [by right|done].
Qed.

Lemma firstLine_None (b : board) ps :
  AI.firstLine b ps = None <-> forall p, p ∈ ps -> AI.lineMark b p = None.
Proof.
  induction ps as [|p ps IH]; simpl.
  - split; [|done]. intros _ p Hp. by apply elem_of_nil in Hp.
  - destruct (AI.lineMark b p) as [m'|] eqn:Hl.
    + split; [discriminate|]. intros H. rewrite <- Hl. apply H. left.
    + rewrite IH. split.
      * intros H p' [->|Hin]%elem_of_cons; [done|by apply H].
      * intros H p' Hin. apply H. by right.
Qed.

Lemma firstLine_noLine (b : board) :
  AI.firstLine b AI.winPatterns = None <-> noLine b.
Proof.
  rewrite firstLine_None. split.
  - intros H m [Hm (p & Hin & Hl)].
    specialize (H p Hin). rewrite lineMark_None in H. by apply (H m).
  - intros H p Hin. apply lineMark_None. intros m Hm Hl.
    apply (H m). split; [done|]. by exists p.
Qed.

Lemma firstLine_hasLine (b : board) m :
  AI.firstLine b AI.winPatterns = Some m -> hasLine b m.
Proof.
  intros (p & Hin & Hl)%firstLine_Some. apply lineMark_Some in Hl as [Hm Hl].
  split; [done|]. by exists p.
Qed.

Lemma forallb_filled (b : board) :
  forallb (fun cell => negb (bool_decide (cell = Empty))) b = true <-> Empty ∉ b.
Proof.
  induction b as [|c b IH]; simpl.
  - split; [|done]. intros _ H. by apply elem_of_nil in H.
  - rewrite andb_true_iff, IH, negb_true_iff, bool_decide_eq_false, not_elem_of_cons.
    split; intros [? ?]; split; congruence.
Qed.

Lemma checkWinner_winner (b : board) m :
  AI.checkWinner b = Some (AI.Winner m) <-> AI.firstLine b AI.winPatterns = Some m.
Proof.
  unfold AI.checkWinner. destruct (AI.firstLine b AI.winPatterns).
  - split; congruence.
  - destruct (forallb _ b); split; discriminate.
Qed.

Lemma checkWinner_draw (b : board) :
  AI.checkWinner b = Some AI.DrawStr <-> noLine b /\ Empty ∉ b.
Proof.
  rewrite <- firstLine_noLine, <- forallb_filled. unfold AI.checkWinner.
  destruct (AI.firstLine b AI.winPatterns).
  - split; [discriminate|]. intros [? _]. discriminate.
  - destruct (forallb _ b); split; try done. intros [_ ?]. discriminate.
Qed.

Lemma checkWinner_None (b : board) :
  AI.checkWinner b = None <-> noLine b /\ Empty ∈ b.
Proof.
  rewrite <- firstLine_noLine. unfold AI.checkWinner.
  destruct (AI.firstLine b AI.winPatterns).
  - split; [discriminate|]. intros [? _]. discriminate.
  - destruct (forallb _ b) eqn:Hall.
    + apply forallb_filled in Hall. split; [discriminate|]. intros [_ ?]. done.
    + split; [|done]. intros _. split; [done|].
      destruct (decide (Empty ∈ b)) as [|Hn]; [done|].
      apply forallb_filled in Hn. congruence.
Qed.

(** When only [m] fills a line, [checkWinner] answers [m]. *)
Lemma checkWinner_only (b : board) m :
  hasLine b m -> (forall m', hasLine b m' -> m' = m) ->
  AI.checkWinner b = Some (AI.Winner m).
Proof.
  intros Hm Honly. apply checkWinner_winner.
  destruct (AI.firstLine b AI.winPatterns) as [m'|] eqn:Hf.
  - apply firstLine_hasLine in Hf. by rewrite (Honly m' Hf).
  - apply firstLine_noLine in Hf. by destruct (Hf m).
Qed.

(** ** The claims about the search *)

(** C5 — Minimax terminal scoring.  On a finished board [minimax] at depth
    [d] answers without searching: [10 - d] when the computer's mark fills
    a line (and the opponent's does not), [d - 10] when the opponent's mark
    fills a line (and the computer's does not), and [0] when no line is
    filled and no cell is empty.  The board is left as it was. *)
Theorem minimax_terminal_score (self : AI.TicTacToeAI) (fuel : nat) (d : Z)
    (isMaximizing : bool) (alpha beta : num) (b : board) :
  properMarks self -> AI.aiPlayer self <> AI.humanPlayer self ->
  (hasLine b (AI.aiPlayer self) -> ~ hasLine b (AI.humanPlayer self) ->
   AI.minimax self (S fuel) d isMaximizing alpha beta b = Some (Fin (10 - d), b)) /\
  (hasLine b (AI.humanPlayer self) -> ~ hasLine b (AI.aiPlayer self) ->
   AI.minimax self (S fuel) d isMaximizing alpha beta b = Some (Fin (d - 10), b)) /\
  (noLine b -> Empty ∉ b ->
   AI.minimax self (S fuel) d isMaximizing alpha beta b = Some (Fin 0, b)).
Proof.
  intros [Hai Hhu] Hne.
  assert (Htwo : forall m, m <> Empty -> m = AI.aiPlayer self \/ m = AI.humanPlayer self).
  { intros m Hm. destruct m, (AI.aiPlayer self), (AI.humanPlayer self); auto; congruence. }
  rewrite minimax_step. unfold AI.terminalScore. split; [|split].
  - intros Hl Hn. rewrite (checkWinner_only b (AI.aiPlayer self)); [|done|].
    + by rewrite bool_decide_eq_true_2.
    + intros m' Hm'. destruct (Htwo m' (proj1 Hm')) as [->| ->]; [done|by destruct Hn].
  - intros Hl Hn. rewrite (checkWinner_only b (AI.humanPlayer self)); [|done|].
    + rewrite bool_decide_eq_false_2 by congruence. by rewrite bool_decide_eq_true_2.
    + intros m' Hm'. destruct (Htwo m' (proj1 Hm')) as [->| ->]; [by destruct Hn|done].
  - intros Hl Hf. assert (Hd : AI.checkWinner b = Some AI.DrawStr) by by apply checkWinner_draw.
    rewrite Hd. by rewrite !bool_decide_eq_false_2.
Qed.

Lemma minimax_terminal_score_witness :
  AI.minimax Game.ai 1 3 true NegInf PosInf [X; X; O; O; O; X; O; X; X] = Some (Fin 7, [X; X; O; O; O; X; O; X; X]).
Proof.
  apply (minimax_terminal_score Game.ai 0 3 true NegInf PosInf [X; X; O; O; O; X; O; X; X]).
  - split; discriminate.
  - discriminate.
  - split; [discriminate|]. exists (2, 4, 6)%nat. split; [|by vm_compute].
    unfold AI.winPatterns. do 7 right. left.
  - intros [_ (p & Hin & Hl)]. unfold AI.winPatterns in Hin.
    repeat (apply elem_of_cons in Hin as [->|Hin]; [vm_compute in Hl; by destruct Hl as (? & ? & ?)|]).
    by apply elem_of_nil in Hin.
Defined.

(** On a nine-cell board, what the scan of [getBestMove] returns: the
    sentinel when no cell is empty, else the first cell of greatest score. *)
Lemma getBestMove_cases (self : AI.TicTacToeAI) (fuel : nat) (b : board) :
  properMarks self -> length b = 9%nat -> (9 <= fuel)%nat ->
  (AI.getBestMove self fuel b = Some (-1, b) /\ Empty ∉ b) \/
  (exists k z, AI.getBestMove self fuel b = Some (Z.of_nat k, b) /\
     (k < 9)%nat /\ b !! k = Some Empty /\
     cellScore self fuel b k = Some (Fin z) /\
     forall j, b !! j = Some Empty ->
       exists zj, cellScore self fuel b j = Some (Fin zj) /\
         zj <= z /\ ((j < k)%nat -> zj < z)).
Proof.
  intros Hm Hlen Hfuel.
  destruct (getBestMove_scan self fuel b Hm) as (sc & Hrun & Hsc).
  { pose proof (remaining_le_9 b). lia. }
  rewrite Hrun. unfold AI.cells.
  assert (Hidx : forall j, b !! j = Some Empty -> (j < 9)%nat).
  { intros j Hj%lookup_lt_Some. lia. }
  assert (Hfin : forall j, b !! j = Some Empty ->
            exists zj, sc j = Fin zj /\ cellScore self fuel b j = Some (Fin zj)).
  { intros j Hj. destruct (Hsc j (Hidx j Hj)) as [Hc Hf]; [by apply isEmptyAt_true|].
    destruct (Hf Hlen) as [zj Hzj]. exists zj. split; [done|]. by rewrite Hc, Hzj. }
  destruct (scan_seq sc b 9 0 NegInf (-1))
    as [[Hr Hle]|(k & Hk & Hr & Hek & Hgt & Hpre & Hpost)].
  - left. rewrite Hr. split; [done|].
    intros [j Hj]%list_elem_of_lookup.
    destruct (Hfin j Hj) as (zj & Hzj & _).
    specialize (Hle j). rewrite Hzj in Hle. simpl in Hle.
    assert (false = true); [|done].
    apply Hle; [specialize (Hidx j Hj); lia|by apply isEmptyAt_true].
  - right. apply isEmptyAt_true in Hek.
    destruct (Hfin k Hek) as (z & Hz & Hcz).
    exists k, z. rewrite Hr. split; [done|]. split; [lia|]. split; [done|].
    split; [done|]. intros j Hj.
    destruct (Hfin j Hj) as (zj & Hzj & Hczj). exists zj. split; [done|].
    pose proof (Hidx j Hj) as Hj9. apply isEmptyAt_true in Hj.
    destruct (lt_eq_lt_dec j k) as [[Hlt|Heq]|Hgt'].
    + specialize (Hpre j). rewrite Hz, Hzj, num_gtb_fin in Hpre.
      assert (zj < z) by (apply Hpre; [lia|done]). lia.
    + subst j. assert (zj = z) by congruence. lia.
    + specialize (Hpost j). rewrite Hz, Hzj, num_leb_fin in Hpost.
      assert (zj <= z) by (apply Hpost; [lia|done]). lia.
Qed.

(** C6 — Tie-break of [getBestMove].  On a board with an empty cell the
    move returned is an empty cell whose score is at least the score of
    every empty cell and strictly greater than the score of every empty
    cell of smaller index: the first cell of greatest score. *)
Theorem getBestMove_first_maximum (self : AI.TicTacToeAI) (fuel : nat) (b : board) :
  properMarks self -> length b = 9%nat -> (9 <= fuel)%nat -> Empty ∈ b ->
  exists k z, AI.getBestMove self fuel b = Some (Z.of_nat k, b) /\
    b !! k = Some Empty /\
    cellScore self fuel b k = Some (Fin z) /\
    forall j, b !! j = Some Empty ->
      exists zj, cellScore self fuel b j = Some (Fin zj) /\
        zj <= z /\ ((j < k)%nat -> zj < z).
Proof.
  intros Hm Hlen Hfuel He.
  destruct (getBestMove_cases self fuel b Hm Hlen Hfuel)
    as [[_ Hn]|(k & z & Hrun & _ & Hk & Hz & Hall)]; [done|].
  exists k, z. done.
Qed.

Lemma getBestMove_first_maximum_witness :
  exists k z, AI.getBestMove Game.ai 9 [X; Empty; Empty; Empty; O; Empty; Empty; Empty; X]
              = Some (Z.of_nat k, [X; Empty; Empty; Empty; O; Empty; Empty; Empty; X]) /\
    [X; Empty; Empty; Empty; O; Empty; Empty; Empty; X] !! k = Some Empty /\
    cellScore Game.ai 9 [X; Empty; Empty; Empty; O; Empty; Empty; Empty; X] k = Some (Fin z) /\
    forall j, [X; Empty; Empty; Empty; O; Empty; Empty; Empty; X] !! j = Some Empty ->
      exists zj, cellScore Game.ai 9 [X; Empty; Empty; Empty; O; Empty; Empty; Empty; X] j
                 = Some (Fin zj) /\
        zj <= z /\ ((j < k)%nat -> zj < z).
Proof.
  apply (getBestMove_first_maximum Game.ai 9
           [X; Empty; Empty; Empty; O; Empty; Empty; Empty; X]).
  - split; discriminate.
  - reflexivity.
  - lia.
  - right. left.
Defined.

(** C10 — The sentinel of [getBestMove].  On a nine-cell board the call
    returns [-1] exactly when no cell is empty; any other result is the
    index, between 0 and 8, of an empty cell. *)
Theorem getBestMove_sentinel (self : AI.TicTacToeAI) (fuel : nat) (b : board) :
  properMarks self -> length b = 9%nat -> (9 <= fuel)%nat ->
  exists m, AI.getBestMove self fuel b = Some (m, b) /\
    (m = -1 <-> Empty ∉ b) /\
    (m <> -1 -> exists i, m = Z.of_nat i /\ (i < 9)%nat /\ b !! i = Some Empty).
Proof.
  intros Hm Hlen Hfuel.
  destruct (getBestMove_cases self fuel b Hm Hlen Hfuel)
    as [[Hrun Hn]|(k & z & Hrun & Hk9 & Hk & _)].
  - exists (-1). split; [done|]. split; [done|]. intros H. done.
  - exists (Z.of_nat k). split; [done|]. split.
    + split; [lia|]. intros Hn. destruct Hn. by apply list_elem_of_lookup_2 with k.
    + intros _. by exists k.
Qed.

Lemma getBestMove_sentinel_witness :
  exists m, AI.getBestMove Game.ai 9 [X; O; X; X; O; O; O; X; X]
            = Some (m, [X; O; X; X; O; O; O; X; X]) /\
    (m = -1 <-> Empty ∉ [X; O; X; X; O; O; O; X; X]) /\
    (m <> -1 -> exists i, m = Z.of_nat i /\ (i < 9)%nat /\
                  [X; O; X; X; O; O; O; X; X] !! i = Some Empty).
Proof.
  apply (getBestMove_sentinel Game.ai 9 [X; O; X; X; O; O; O; X; X]).
  - split; discriminate.
  - reflexivity.
  - lia.
Defined.

(** C8 — Snapshot purity.  Whenever [getBestMove] returns, the board is
    the one it was given; with two real marks and fuel for nine levels it
    does return; [getMediumMove] always returns and leaves the board as it
    was.  Every placement is undone, on pruning breaks and early returns
    as well. *)
Theorem selectors_restore_board (self : AI.TicTacToeAI) (fuel : nat)
    (r : sample) (b : board) :
  (forall m b', AI.getBestMove self fuel b = Some (m, b') -> b' = b) /\
  (properMarks self -> (9 <= fuel)%nat ->
   exists m, AI.getBestMove self fuel b = Some (m, b)) /\
  (exists v, AI.getMediumMove self r b = Some (v, b)).
Proof.
  split; [|split].
  - intros m b' H. unfold AI.getBestMove in H.
    eapply bestLoop_restores; [|exact H]. apply minimax_restores.
  - intros Hm Hfuel.
    destruct (getBestMove_scan self fuel b Hm) as (sc & Hrun & _).
    { pose proof (remaining_le_9 b). lia. }
    eexists. exact Hrun.
  - rewrite getMediumMove_eq. by eexists.
Qed.

Lemma selectors_restore_board_witness :
  exists m, AI.getBestMove Game.ai 9 [X; X; Empty; O; O; Empty; Empty; Empty; Empty]
            = Some (m, [X; X; Empty; O; O; Empty; Empty; Empty; Empty]).
Proof.
  apply (selectors_restore_board Game.ai 9 {| snum := 1; sden := 2 |}
           [X; X; Empty; O; O; Empty; Empty; Empty; Empty]).
  - split; discriminate.
  - lia.
Defined.

(** ** The claims about the easier strategies *)

Lemma find_seq_first (f : nat -> bool) n : forall a i,
  (a <= i < a + n)%nat -> f i = true ->
  (forall j, (a <= j < i)%nat -> f j = false) ->
  find f (seq a n) = Some i.
Proof.
  induction n as [|n IH]; intros a i Hi Hf Hbefore; [lia|].
  cbn [seq find]. destruct (decide (a = i)) as [->|Hne].
  - by rewrite Hf.
  - rewrite (Hbefore a) by lia. apply IH; [lia|done|].
    intros j Hj. apply Hbefore. lia.
Qed.

Lemma holdsLine_off (b : board) i m m' p :
  ~ onLine i p -> holdsLine (<[i:=m]> b) m' p -> holdsLine b m' p.
Proof.
  destruct p as [[x y] z]. unfold onLine, holdsLine. intros Hoff.
  rewrite !list_lookup_insert_ne by (intros ->; tauto). done.
Qed.

Lemma holdsLine_on (b : board) i m m' p :
  (i < length b)%nat -> onLine i p -> holdsLine (<[i:=m]> b) m' p -> m' = m.
Proof.
  destruct p as [[x y] z]. unfold onLine, holdsLine.
  intros Hi [->|[->| ->]] (Hx & Hy & Hz);
    rewrite list_lookup_insert_eq in * by done; congruence.
Qed.

Lemma onLine_dec i p : {onLine i p} + {~ onLine i p}.
Proof.
  destruct p as [[x y] z]. unfold onLine.
  destruct (decide (i = x)), (decide (i = y)), (decide (i = z)); auto.
  right. tauto.
Qed.

(** On a board without a filled line, placing [m] on an empty cell makes
    [checkWinner] answer [m] exactly when the cell completes a line. *)
Lemma winsAt_completes (b : board) m j :
  m <> Empty -> noLine b -> winsAt b m j = true <-> completesLine b m j.
Proof.
  intros Hm Hno. unfold winsAt, completesLine.
  rewrite andb_true_iff, isEmptyAt_true, bool_decide_eq_true. split.
  - intros [He Hw]. split; [done|].
    apply checkWinner_winner, firstLine_Some in Hw as (p & Hin & Hl).
    apply lineMark_Some in Hl as [_ Hl]. exists p. split; [done|]. split; [|done].
    destruct (onLine_dec j p) as [|Hoff]; [done|].
    destruct (Hno m). split; [done|]. exists p. split; [done|].
    by eapply holdsLine_off.
  - intros [He (p & Hin & Hon & Hl)]. split; [done|].
    apply checkWinner_only.
    + split; [done|]. by exists p.
    + intros m' [Hm' (p' & Hin' & Hl')].
      destruct (onLine_dec j p') as [Hon'|Hoff].
      * eapply holdsLine_on; [|exact Hon'|exact Hl']. by eapply lookup_lt_Some.
      * destruct (Hno m'). split; [done|]. exists p'. split; [done|].
        by eapply holdsLine_off.
Qed.

Lemma completesLine_iff (b : board) m i :
  completesLine b m i <-> completesLineb b m i = true.
Proof.
  unfold completesLine, completesLineb.
  rewrite andb_true_iff, isEmptyAt_true, existsb_exists.
  split; intros [He (p & Hin & H)]; (split; [done|]); exists p.
  - split; [by apply list_elem_of_In|]. destruct p as [[x y] z].
    destruct H as [Hon (Hx & Hy & Hz)]. unfold onLine in Hon.
    rewrite !andb_true_iff, !orb_true_iff, !bool_decide_eq_true. tauto.
  - split; [by apply list_elem_of_In|]. destruct p as [[x y] z].
    rewrite !andb_true_iff, !orb_true_iff, !bool_decide_eq_true in H.
    unfold onLine, holdsLine. tauto.
Qed.

(** C7, as the code has it — [getMediumMove] looks for its own win first.
    On a board where no line is filled yet, if some empty cell completes a
    line for the computer's mark, the call returns the smallest such
    index, whatever the opponent threatens; the board is left as it was. *)
Theorem getMediumMove_takes_win (self : AI.TicTacToeAI) (r : sample)
    (b : board) (i : nat) :
  AI.aiPlayer self <> Empty -> noLine b ->
  completesLine b (AI.aiPlayer self) i ->
  (forall j, (j < i)%nat -> ~ completesLine b (AI.aiPlayer self) j) ->
  AI.getMediumMove self r b = Some (Return (Num (Z.of_nat i)), b).
Proof.
  intros Hai Hno Hi Hsmall. rewrite getMediumMove_eq.
  assert (H9 : (i < 9)%nat).
  { destruct Hi as [_ (p & Hin & Hon & _)]. unfold AI.winPatterns in Hin.
    repeat (apply elem_of_cons in Hin as [->|Hin];
            [unfold onLine in Hon; lia|]).
    by apply elem_of_nil in Hin. }
  unfold AI.cells. rewrite (find_seq_first _ 9 0 i); [done|lia| |].
  - by apply winsAt_completes.
  - intros j Hj. destruct (winsAt b (AI.aiPlayer self) j) eqn:Hw; [|done].
    apply winsAt_completes in Hw; [|done|done]. destruct (Hsmall j); [lia|done].
Qed.

(** The scenario of the specification: the computer completes its own row
    at 5 although the opponent threatens at 2. *)
Lemma getMediumMove_takes_win_witness :
  AI.getMediumMove Game.ai {| snum := 1; sden := 2 |}
    [X; X; Empty; O; O; Empty; Empty; Empty; Empty]
  = Some (Return (Num 5), [X; X; Empty; O; O; Empty; Empty; Empty; Empty]).
Proof.
  apply (getMediumMove_takes_win Game.ai {| snum := 1; sden := 2 |}
           [X; X; Empty; O; O; Empty; Empty; Empty; Empty] 5).
  - discriminate.
  - apply firstLine_noLine. reflexivity.
  - apply completesLine_iff. reflexivity.
  - intros j Hj Hc. apply completesLine_iff in Hc.
    do 5 (destruct j as [|j]; [discriminate Hc|]). lia.
Defined.

(** C7, as the claim words it, fails on a board where a line is already
    filled: with the top row held by X, cell 8 is the only cell that
    completes a line for O, and the call returns 3. *)
Lemma getMediumMove_misses_win :
  let b := [X; X; X; Empty; Empty; Empty; O; O; Empty] in
  completesLine b (AI.aiPlayer Game.ai) 8 /\
  (forall j, (j < 8)%nat -> ~ completesLine b (AI.aiPlayer Game.ai) j) /\
  AI.getMediumMove Game.ai {| snum := 1; sden := 2 |} b = Some (Return (Num 3), b) /\
  AI.getMediumMove Game.ai {| snum := 1; sden := 2 |} b <> Some (Return (Num 8), b).
Proof.
  cbv zeta. split; [|split; [|split]].
  - apply completesLine_iff. reflexivity.
  - intros j Hj Hc. apply completesLine_iff in Hc.
    do 8 (destruct j as [|j]; [discriminate Hc|]). lia.
  - reflexivity.
  - discriminate.
Qed.

Lemma emptyCells_full (b : board) : Empty ∉ b -> AI.emptyCells b = [].
Proof.
  intros Hn. unfold AI.emptyCells. generalize AI.cells.
  induction l as [|i l IH]; [reflexivity|].
  rewrite filter_cons_False; [done|].
  intros He%isEmptyAt_true. destruct Hn. by apply list_elem_of_lookup_2 with i.
Qed.

Lemma find_winsAt_full (b : board) m l : Empty ∉ b -> find (winsAt b m) l = None.
Proof.
  intros Hn. induction l as [|i l IH]; [reflexivity|]. simpl.
  unfold winsAt at 1. destruct (isEmptyAt b i) eqn:He; [|done].
  apply isEmptyAt_true in He. destruct Hn. by apply list_elem_of_lookup_2 with i.
Qed.

(** C9, as the code has it — no move to pick.  On a board without an
    empty cell [getRandomMove] returns [undefined], and [getMediumMove],
    which finds nothing to win or to block, returns that same [undefined];
    neither call throws. *)
Theorem no_empty_cell_undefined (self : AI.TicTacToeAI) (r : sample) (b : board) :
  Empty ∉ b ->
  AI.getRandomMove r b = Return Undefined /\
  AI.getMediumMove self r b = Some (Return Undefined, b).
Proof.
  intros Hn.
  assert (Hr : AI.getRandomMove r b = Return Undefined).
  { unfold AI.getRandomMove. by rewrite emptyCells_full. }
  split; [done|].
  rewrite getMediumMove_eq, !find_winsAt_full by done. by rewrite Hr.
Qed.

Lemma no_empty_cell_undefined_witness :
  AI.getRandomMove {| snum := 1; sden := 2 |} [X; O; X; X; O; O; O; X; X]
    = Return Undefined /\
  AI.getMediumMove Game.ai {| snum := 1; sden := 2 |} [X; O; X; X; O; O; O; X; X]
    = Some (Return Undefined, [X; O; X; X; O; O; O; X; X]).
Proof.
  apply (no_empty_cell_undefined Game.ai {| snum := 1; sden := 2 |}
           [X; O; X; X; O; O; O; X; X]).
  intros H. repeat (apply elem_of_cons in H as [H|H]; [discriminate H|]).
  by apply elem_of_nil in H.
Defined.

(** C9, as the claim words it, fails: on a full board the random strategy
    and the heuristic that falls back on it return normally, with
    [undefined], instead of raising [EmptyBoardRequestedMove]. *)
Lemma full_board_no_error :
  let b := [X; O; X; X; O; O; O; X; X] in
  (Empty ∉ b) /\
  AI.getRandomMove {| snum := 1; sden := 2 |} b = Return Undefined /\
  AI.getRandomMove {| snum := 1; sden := 2 |} b <> Throw EmptyBoardRequestedMove /\
  AI.getMediumMove Game.ai {| snum := 1; sden := 2 |} b = Some (Return Undefined, b) /\
  AI.getMediumMove Game.ai {| snum := 1; sden := 2 |} b
    <> Some (Throw EmptyBoardRequestedMove, b).
Proof.
  cbv zeta. split; [|split; [|split; [|split]]].
  - intros H. repeat (apply elem_of_cons in H as [H|H]; [discriminate H|]).
    by apply elem_of_nil in H.
  - reflexivity.
  - discriminate.
  - reflexivity.
  - discriminate.
Qed.

(** ** The claims about the game script *)

Lemma findWin_firstLine (b : board) ps :
  Game.findWin b ps = None <-> AI.firstLine b ps = None.
Proof.
  induction ps as [|p ps IH]; simpl; [done|].
  destruct (AI.lineMark b p); [split; discriminate|done].
Qed.

(** C3, as the code has it — the engine knows no draw.  On every board
    without a filled line [checkGameStatus] returns [false] ("game
    continues") and changes nothing, whether or not a cell is empty. *)
Theorem checkGameStatus_no_line (st : Game.gameState) :
  noLine (Game.board_ st) ->
  Game.checkGameStatus st = (false, st) /\ Game.checkOutcome st = Game.InProgress.
Proof.
  intros Hno%firstLine_noLine.
  assert (Hf : Game.findWin (Game.board_ st) Game.winPatterns = None).
  { by apply findWin_firstLine. }
  unfold Game.checkOutcome, Game.checkGameStatus. by rewrite Hf.
Qed.

Lemma checkGameStatus_no_line_witness :
  Game.checkGameStatus Game.initialState = (false, Game.initialState) /\
  Game.checkOutcome Game.initialState = Game.InProgress.
Proof.
  apply (checkGameStatus_no_line Game.initialState).
  apply firstLine_noLine. reflexivity.
Defined.

(** C3, as the claim words it, fails: a board with nine marks and no
    filled line is reported as "game continues", not as a draw, and the
    draw counter is not touched. *)
Lemma full_board_not_draw :
  let st := Game.withBoard [X; O; X; X; O; O; O; X; X] Game.initialState in
  noLine (Game.board_ st) /\ (Empty ∉ Game.board_ st) /\
  Game.checkGameStatus st = (false, st) /\
  Game.checkOutcome st = Game.InProgress /\
  Game.checkOutcome st <> Game.Draw /\
  snd (Game.checkGameStatus st) <> Game.handleDraw st.
Proof.
  cbv zeta. split; [|split; [|split; [|split; [|split]]]].
  - apply firstLine_noLine. reflexivity.
  - intros H. simpl in H.
    repeat (apply elem_of_cons in H as [H|H]; [discriminate H|]).
    by apply elem_of_nil in H.
  - reflexivity.
  - reflexivity.
  - discriminate.
  - discriminate.
Qed.

(** C4, as the code has it — a click that is not a valid move is dropped.
    When the index is outside 0-8 or the cell is not empty,
    [handleCellClick] returns normally, schedules nothing and leaves the
    whole game state (board and move history included) as it was. *)
Theorem invalid_click_dropped (index : Z) (st : Game.gameState) :
  length (Game.board_ st) = 9%nat ->
  index < 0 \/ 8 < index \/
    (exists m, Game.cellAt (Game.board_ st) index = Some m /\ m <> Empty) ->
  Game.handleCellClick index st = (Return tt, st, false).
Proof.
  intros Hlen Hbad. unfold Game.handleCellClick.
  destruct (Game.isProcessing st); [reflexivity|].
  case_bool_decide as Hc; [|reflexivity]. exfalso.
  unfold Game.cellAt in *. destruct (Z.leb_spec 0 index) as [Hpos|Hneg].
  - destruct Hbad as [?|[?|(m & Hm & Hne)]]; [lia| |congruence].
    apply lookup_lt_Some in Hc. lia.
  - discriminate.
Qed.

Lemma invalid_click_dropped_witness :
  Game.handleCellClick 4 (Game.makeMove 4 Game.initialState)
  = (Return tt, Game.makeMove 4 Game.initialState, false).
Proof.
  apply (invalid_click_dropped 4 (Game.makeMove 4 Game.initialState)).
  - reflexivity.
  - right. right. exists X. split; [reflexivity|discriminate].
Defined.

(** C4, as the claim words it, fails: in a two-player game with X on the
    centre, a click on the centre and a click on a cell number 9 both
    return normally, not with [InvalidMove]. *)
Lemma occupied_click_no_error :
  let st := Game.makeMove 4 (Game.resetGame
              {| Game.board_ := Game.board_ Game.initialState;
                 Game.currentPlayer := X;
                 Game.gameMode := Game.Mode2P;
                 Game.scores := Game.scores Game.initialState;
                 Game.winningLine := None;
                 Game.moveHistory := [];
                 Game.isProcessing := false;
                 Game.gameActive := None |}) in
  Game.board_ st !! 4%nat = Some X /\
  Game.handleCellClick 4 st = (Return tt, st, false) /\
  fst (fst (Game.handleCellClick 4 st)) <> Throw InvalidMove /\
  Game.handleCellClick 9 st = (Return tt, st, false) /\
  fst (fst (Game.handleCellClick 9 st)) <> Throw InvalidMove.
Proof.
  cbv zeta. split; [|split; [|split; [|split]]];
    first [reflexivity | discriminate].
Qed.

(** ** The move history and the board *)

Lemma occupied_le (b : board) : (Game.occupied b <= length b)%nat.
Proof. apply length_filter. Qed.

Lemma occupied_lt (b : board) : Empty ∈ b -> (Game.occupied b < length b)%nat.
Proof. intros H. apply length_filter_lt with Empty; [done|]. by intros []. Qed.

Lemma occupied_place (b : board) : forall i m,
  b !! i = Some Empty -> m <> Empty ->
  Game.occupied (<[i:=m]> b) = S (Game.occupied b).
Proof.
  unfold Game.occupied.
  induction b as [|c b IH]; intros i m Hi Hm; [done|].
  destruct i as [|i]; simpl in *.
  - injection Hi as ->. rewrite filter_cons_True by done.
    by rewrite filter_cons_False by (by intros []).
  - destruct (decide (c <> Empty)).
    + rewrite !filter_cons_True by done. simpl. f_equal. by apply IH.
    + rewrite !filter_cons_False by done. by apply IH.
Qed.

Lemma switchPlayer_mark p : Game.switchPlayer p <> Empty.
Proof. by destruct p. Qed.

Lemma length_records moves : forall p, length (records moves p) = length moves.
Proof. induction moves as [|i rest IH]; intros p; simpl; [done|]. by rewrite IH. Qed.

(** A valid move on a consistent state evicts nothing: it writes the mark
    and appends its record. *)
Lemma makeMove_valid (i : nat) (st : Game.gameState) :
  consistent st -> Game.board_ st !! i = Some Empty ->
  Game.board_ (Game.makeMove i st) = <[i := Game.currentPlayer st]> (Game.board_ st) /\
  Game.moveHistory (Game.makeMove i st)
    = Game.moveHistory st ++ [ {| Game.index := i; Game.player := Game.currentPlayer st |} ] /\
  Game.currentPlayer (Game.makeMove i st) = Game.switchPlayer (Game.currentPlayer st) /\
  consistent (Game.makeMove i st).
Proof.
  intros (Hlen & Hh & Hp) Hi.
  assert (Hlt : (length (Game.moveHistory st) < 9)%nat).
  { rewrite Hh, <- Hlen. apply occupied_lt. by apply list_elem_of_lookup_2 with i. }
  unfold Game.makeMove, Game.maxMoves.
  destruct (Nat.leb_spec 9 (length (Game.moveHistory st))) as [?|_]; [lia|].
  split; [done|]. split; [done|]. split; [done|].
  unfold consistent. cbn [Game.board_ Game.moveHistory Game.currentPlayer].
  split; [by rewrite length_insert|]. split; [|apply switchPlayer_mark].
  rewrite length_app, occupied_place by done. simpl. lia.
Qed.

Lemma makeMoves_valid moves : forall st,
  consistent st -> Game.validMoves moves st ->
  consistent (Game.makeMoves moves st) /\
  Game.moveHistory (Game.makeMoves moves st)
    = Game.moveHistory st ++ records moves (Game.currentPlayer st).
Proof.
  induction moves as [|i rest IH]; intros st Hc Hv; simpl.
  - by rewrite app_nil_r.
  - destruct Hv as [Hi Hv].
    destruct (makeMove_valid i st Hc Hi) as (_ & Hh & Hp & Hc').
    destruct (IH _ Hc' Hv) as [Hc'' Hh'']. split; [done|].
    rewrite Hh'', Hh, Hp, <- app_assoc. done.
Qed.


Lemma resetGame_consistent st : consistent (Game.resetGame st).
Proof. repeat split; done. Qed.




(** ** More fuel does not change a result *)

Section Fuel.

Variable self : AI.TicTacToeAI.

Lemma maxLoop_mono rec rec' idxs :
  (forall alpha beta, extends (rec alpha beta) (rec' alpha beta)) ->
  forall maxScore alpha beta,
  extends (AI.maxLoop self rec idxs maxScore alpha beta)
          (AI.maxLoop self rec' idxs maxScore alpha beta).
Proof.
  intros Hrec. induction idxs as [|i rest IH]; intros maxScore alpha beta b r H; [done|].
  rewrite maxLoop_cons in *. destruct (isEmptyAt b i); [|by apply IH].
  destruct (rec alpha beta _) as [[score b1]|] eqn:Hcall; [|discriminate].
  rewrite (Hrec _ _ _ _ Hcall). destruct (num_leb beta _); [done|by apply IH].
Qed.

Lemma minLoop_mono rec rec' idxs :
  (forall alpha beta, extends (rec alpha beta) (rec' alpha beta)) ->
  forall minScore alpha beta,
  extends (AI.minLoop self rec idxs minScore alpha beta)
          (AI.minLoop self rec' idxs minScore alpha beta).
Proof.
  intros Hrec. induction idxs as [|i rest IH]; intros minScore alpha beta b r H; [done|].
  rewrite minLoop_cons in *. destruct (isEmptyAt b i); [|by apply IH].
  destruct (rec alpha beta _) as [[score b1]|] eqn:Hcall; [|discriminate].
  rewrite (Hrec _ _ _ _ Hcall). destruct (num_leb _ alpha); [done|by apply IH].
Qed.

Lemma bestLoop_mono rec rec' idxs :
  extends rec rec' ->
  forall bestScore bestMove,
  extends (AI.bestLoop self rec idxs bestScore bestMove)
          (AI.bestLoop self rec' idxs bestScore bestMove).
Proof.
  intros Hrec. induction idxs as [|i rest IH]; intros bestScore bestMove b r H; [done|].
  rewrite bestLoop_cons in *. destruct (isEmptyAt b i); [|by apply IH].
  destruct (rec _) as [[score b1]|] eqn:Hcall; [|discriminate].
  rewrite (Hrec _ _ Hcall). destruct (num_gtb score bestScore); by apply IH.
Qed.

Lemma minimax_mono fuel : forall fuel' depth isMax alpha beta,
  (fuel <= fuel')%nat ->
  extends (AI.minimax self fuel depth isMax alpha beta)
          (AI.minimax self fuel' depth isMax alpha beta).
Proof.
  induction fuel as [|fuel IH]; intros fuel' depth isMax alpha beta Hle b r H.
  { discriminate. }
  destruct fuel' as [|fuel']; [lia|].
  rewrite minimax_step in *. destruct (AI.checkWinner b); [done|].
  destruct isMax.
  - eapply maxLoop_mono; [|exact H]. intros a' b'. apply IH. lia.
  - eapply minLoop_mono; [|exact H]. intros a' b'. apply IH. lia.
Qed.

Lemma getBestMove_mono fuel fuel' (b : board) r :
  (fuel <= fuel')%nat ->
  AI.getBestMove self fuel b = Some r -> AI.getBestMove self fuel' b = Some r.
Proof.
  intros Hle H. unfold AI.getBestMove in *.
  eapply bestLoop_mono; [|exact H]. by apply minimax_mono.
Qed.

(** ** The exhaustive check covers every reachable position *)

Lemma safe_not_lost fuel n t (b : board) :
  safe self fuel n t b = true ->
  AI.checkWinner b <> Some (AI.Winner (AI.humanPlayer self)).
Proof.
  destruct n as [|n]; [discriminate|]. cbn [safe].
  destruct (AI.checkWinner b) as [r|].
  - intros H%negb_true_iff%bool_decide_eq_false. congruence.
  - intros _. discriminate.
Qed.

Lemma safe_reachable fuel t (b : board) :
  (9 <= fuel)%nat ->
  safe self 9 10 true emptyBoard = true ->
  reachable self fuel t b ->
  length b = 9%nat /\ exists n, safe self 9 n t b = true.
Proof.
  intros Hfuel Hstart. induction 1 as [|b i _ [Hlen [n IH]] Hw Hi|b b' k _ [Hlen [n IH]] Hw Hm].
  - split; [reflexivity|]. exists 10%nat. exact Hstart.
  - split; [by rewrite length_insert|].
    destruct n as [|n]; [discriminate IH|]. exists n.
    cbn [safe] in IH. rewrite Hw in IH.
    rewrite forallb_forall in IH. specialize (IH i).
    rewrite (proj2 (isEmptyAt_true b i) Hi) in IH. apply IH.
    apply list_elem_of_In, cells_lt. apply lookup_lt_Some in Hi. lia.
  - destruct n as [|n]; [discriminate IH|].
    cbn [safe] in IH. rewrite Hw in IH.
    destruct (AI.getBestMove self 9 b) as [[m b0]|] eqn:Hm9; [|discriminate IH].
    apply (getBestMove_mono 9 fuel) in Hm9; [|done].
    rewrite Hm9 in Hm. injection Hm as -> ->.
    apply andb_true_iff in IH as [_ IH]. rewrite Nat2Z.id in IH.
    assert (b' = b) as ->.
    { eapply bestLoop_restores; [|exact Hm9]. apply minimax_restores. }
    split; [by rewrite length_insert|]. exists n. exact IH.
Qed.

End Fuel.

(** On a board without a filled line, a mark placed on an empty cell can
    only fill a line of its own. *)
Lemma hasLine_place (b : board) i m m' :
  noLine b -> b !! i = Some Empty -> hasLine (<[i:=m]> b) m' -> m' = m.
Proof.
  intros Hno Hi [Hm' (p & Hin & Hl)].
  destruct (onLine_dec i p) as [Hon|Hoff].
  - eapply holdsLine_on; [|exact Hon|exact Hl]. by eapply lookup_lt_Some.
  - destruct (Hno m'). split; [done|]. exists p. split; [done|]. by eapply holdsLine_off.
Qed.

(** The games told by the rules are games of [reachable], on nine cells,
    and the computer's answer is an empty cell of the board it was given. *)
Lemma played_reachable (self : AI.TicTacToeAI) (fuel : nat) t (b : board) :
  properMarks self -> (9 <= fuel)%nat -> played self fuel t b ->
  reachable self fuel t b /\ length b = 9%nat.
Proof.
  intros Hm Hfuel. induction 1 as [|b i _ [IH Hlen] Hno Hi|b b' k _ [IH Hlen] Hno Hrun].
  - split; [apply reach_start|reflexivity].
  - split; [|by rewrite length_insert]. apply reach_opponent; [done| |done].
    apply checkWinner_None. split; [done|]. by eapply list_elem_of_lookup_2.
  - destruct (getBestMove_cases self fuel b Hm Hlen Hfuel)
      as [[Hrun' _]|(k' & z & Hrun' & _ & Hk' & _)];
      rewrite Hrun' in Hrun; injection Hrun as Hk <-; [lia|].
    split; [|by rewrite length_insert]. eapply reach_computer; [exact IH| |].
    + apply checkWinner_None. split; [done|]. by eapply list_elem_of_lookup_2.
    + by rewrite Hrun', Hk.
Qed.

(** C1 — The optimal strategy is never beaten.  In every game that starts
    on the empty board and goes on while no line is filled, whatever cells
    the opponent, moving first, plays, if the computer answers each time
    with the move of [getBestMove], then in no position that is reached
    does the opponent's mark fill a line, nor does [checkWinner] name the
    opponent; and at each of its turns, on a board without a filled line
    and with an empty cell, [getBestMove] does give the computer an empty
    cell to play on. *)
Theorem bestMove_never_loses (self : AI.TicTacToeAI) (fuel : nat)
    (opponentToMove : bool) (b : board) :
  properMarks self -> AI.aiPlayer self <> AI.humanPlayer self ->
  (9 <= fuel)%nat ->
  played self fuel opponentToMove b ->
  ~ hasLine b (AI.humanPlayer self) /\
  AI.checkWinner b <> Some (AI.Winner (AI.humanPlayer self)) /\
  (opponentToMove = false -> noLine b -> Empty ∈ b ->
   exists k, AI.getBestMove self fuel b = Some (Z.of_nat k, b) /\
     b !! k = Some Empty).
Proof.
  intros Hm Hne Hfuel Hplayed.
  assert (Hstart : safe self 9 10 true emptyBoard = true).
  { destruct self as [ai human]. destruct Hm as [Hai Hhu].
    cbn [AI.aiPlayer AI.humanPlayer] in Hai, Hhu, Hne.
    destruct ai, human; try congruence; vm_compute; reflexivity. }
  destruct (played_reachable self fuel opponentToMove b Hm Hfuel Hplayed)
    as [Hreach Hlen].
  destruct (safe_reachable self fuel opponentToMove b Hfuel Hstart Hreach)
    as [_ [n Hsafe]].
  assert (Hscan : AI.checkWinner b <> Some (AI.Winner (AI.humanPlayer self))).
  { eapply safe_not_lost. exact Hsafe. }
  split; [|split; [exact Hscan|]].
  - intros Hline. destruct Hplayed as [|b0 i Hp0 Hno Hi|b0 b' k Hp0 Hno Hrun].
    + apply (proj1 (firstLine_noLine emptyBoard) eq_refl _ Hline).
    + apply Hscan. apply checkWinner_only; [done|].
      intros m' Hm'. by eapply hasLine_place.
    + destruct (played_reachable self fuel false b0 Hm Hfuel Hp0) as [_ Hlen0].
      destruct (getBestMove_cases self fuel b0 Hm Hlen0 Hfuel)
        as [[Hrun' _]|(k' & z & Hrun' & _ & Hk' & _)];
        rewrite Hrun' in Hrun; injection Hrun as Hk <-; [lia|].
      apply Nat2Z.inj in Hk. subst k'.
      apply Hne. symmetry. by eapply hasLine_place.
  - intros _ _ He.
    destruct (getBestMove_cases self fuel b Hm Hlen Hfuel)
      as [[_ Hn]|(k & z & Hrun & _ & Hk & _)]; [done|].
    by exists k.
Qed.

(** A position of such a game: X takes the centre, the computer answers
    on cell 0, X takes cell 8. *)
Lemma bestMove_never_loses_witness :
  ~ hasLine [O; Empty; Empty; Empty; X; Empty; Empty; Empty; X] X.
Proof.
  refine (proj1 (bestMove_never_loses Game.ai 9 false
           (<[8%nat := AI.humanPlayer Game.ai]>
              (<[0%nat := AI.aiPlayer Game.ai]>
                 (<[4%nat := AI.humanPlayer Game.ai]> emptyBoard))) _ _ _ _)).
  - split; discriminate.
  - discriminate.
  - lia.
  - apply played_opponent; [|apply firstLine_noLine; reflexivity|reflexivity].
    apply (played_computer Game.ai 9 (<[4%nat := AI.humanPlayer Game.ai]> emptyBoard)
             (<[4%nat := AI.humanPlayer Game.ai]> emptyBoard) 0);
      [|apply firstLine_noLine; reflexivity|vm_compute; reflexivity].
    apply played_opponent;
      [apply played_start|apply firstLine_noLine; reflexivity|reflexivity].
Defined.

(** ** The caller of [getBestMove] *)

Lemma withBoard_same (st : Game.gameState) : Game.withBoard (Game.board_ st) st = st.
Proof. by destruct st. Qed.

(** The timer callback plays the returned cell when there is one, and
    plays nothing on a board without an empty cell. *)
Lemma aiTurn_guarded (fuel : nat) (st : Game.gameState) :
  length (Game.board_ st) = 9%nat -> (9 <= fuel)%nat ->
  ((Empty ∉ Game.board_ st) /\
   Game.aiTurn fuel st = Some (Game.withProcessing false st)) \/
  (exists k, Game.board_ st !! k = Some Empty /\
     Game.aiTurn fuel st
     = Some (Game.withProcessing false
               (snd (Game.checkGameStatus (Game.makeMove k st))))).
Proof.
  intros Hlen Hfuel. unfold Game.aiTurn.
  destruct (getBestMove_cases Game.ai fuel (Game.board_ st))
    as [[Hrun Hn]|(k & z & Hrun & Hk9 & Hk & _)];
    [split; discriminate|done|done| |]; rewrite Hrun, withBoard_same.
  - left. split; [done|]. reflexivity.
  - right. exists k. split; [done|].
    replace (Z.of_nat k =? -1) with false by (symmetry; apply Z.eqb_neq; lia).
    unfold Game.cellAt. rewrite (proj2 (Z.leb_le 0 (Z.of_nat k))) by lia.
    rewrite Nat2Z.id, Hk. by rewrite bool_decide_eq_true_2.
Qed.

(** * Further properties of the search *)

Ltac num_small :=
  unfold num_max, num_min, num_gtb, num_leb in *;
  repeat match goal with x : num |- _ => destruct x end;
  simpl in *; try congruence; try reflexivity;
  repeat match goal with
         | |- context [?x <=? ?y] => destruct (Z.leb_spec x y); simpl in *
         | H : context [?x <=? ?y] |- _ => destruct (Z.leb_spec x y); simpl in *
         end;
  try congruence; try reflexivity; try lia; try (f_equal; lia).

Lemma num_total a b : a ≼ b \/ b ≺ a.
Proof. destruct (num_leb a b); auto. Qed.
Lemma num_lt_weaken a b : a ≺ b -> a ≼ b.
Proof. intros. num_small. Qed.
Lemma num_le_lt a b c : a ≼ b -> b ≺ c -> a ≺ c.
Proof. intros. num_small. Qed.
Lemma num_lt_le_trans a b c : a ≺ b -> b ≼ c -> a ≺ c.
Proof. intros. num_small. Qed.
Lemma num_antisym a b : a ≼ b -> b ≼ a -> a = b.
Proof. intros. num_small. Qed.
Lemma num_lt_not_le a b : a ≺ b -> b ≼ a -> False.
Proof. intros. congruence. Qed.
Lemma num_le_refl a : a ≼ a.
Proof. num_small. Qed.
Lemma num_max_l a b : a ≼ num_max a b.
Proof. num_small. Qed.
Lemma num_max_r a b : b ≼ num_max a b.
Proof. num_small. Qed.
Lemma num_max_lub a b c : a ≼ c -> b ≼ c -> num_max a b ≼ c.
Proof. unfold num_max. by destruct (num_leb a b). Qed.
Lemma num_max_lub_lt a b c : a ≺ c -> b ≺ c -> num_max a b ≺ c.
Proof. unfold num_max. by destruct (num_leb a b). Qed.
Lemma num_max_eq_r a b : a ≼ b -> num_max a b = b.
Proof. unfold num_max. by intros ->. Qed.
Lemma num_max_eq_l a b : b ≼ a -> num_max a b = a.
Proof. intros. num_small. Qed.
Lemma num_max_assoc a b c : num_max (num_max a b) c = num_max a (num_max c b).
Proof. num_small. Qed.
Lemma num_min_l a b : num_min a b ≼ a.
Proof. num_small. Qed.
Lemma num_min_r a b : num_min a b ≼ b.
Proof. num_small. Qed.
Lemma num_min_glb a b c : c ≼ a -> c ≼ b -> c ≼ num_min a b.
Proof. unfold num_min. by destruct (num_leb a b). Qed.
Lemma num_min_glb_lt a b c : c ≺ a -> c ≺ b -> c ≺ num_min a b.
Proof. unfold num_min. by destruct (num_leb a b). Qed.
Lemma num_min_eq_l a b : a ≼ b -> num_min a b = a.
Proof. unfold num_min. by intros ->. Qed.
Lemma num_min_eq_r a b : b ≼ a -> num_min a b = b.
Proof. intros. num_small. Qed.
Lemma num_min_assoc a b c : num_min (num_min a b) c = num_min a (num_min c b).
Proof. num_small. Qed.
Lemma num_gtb_lt a b : num_gtb a b = true <-> b ≺ a.
Proof. unfold num_gtb. apply negb_true_iff. Qed.

Lemma num_max_neg a : num_max a NegInf = a.
Proof. num_small. Qed.
Lemma num_min_pos a : num_min a PosInf = a.
Proof. num_small. Qed.

Lemma failSoft_refl alpha beta v : failSoft alpha beta v v.
Proof. repeat split; intros; apply num_le_refl. Qed.

Lemma failSoft_full s v : failSoft NegInf PosInf s v -> s = v.
Proof. unfold failSoft. intros (H1 & H2 & H3). num_small; intuition congruence. Qed.

Lemma maxOver_ge g (b : board) idxs : forall acc, acc ≼ maxOver g b idxs acc.
Proof.
  induction idxs as [|i rest IH]; intros acc; simpl; [apply num_le_refl|].
  destruct (isEmptyAt b i); [|apply IH].
  eapply num_le_trans; [apply num_max_r|apply IH].
Qed.

Lemma minOver_le g (b : board) idxs : forall acc, minOver g b idxs acc ≼ acc.
Proof.
  induction idxs as [|i rest IH]; intros acc; simpl; [apply num_le_refl|].
  destruct (isEmptyAt b i); [|apply IH].
  eapply num_le_trans; [apply IH|apply num_min_r].
Qed.

Section Pruning.

Variable self : AI.TicTacToeAI.

Lemma maxLoop_failSoft rec g (b : board) idxs alpha0 beta :
  (forall i a, i ∈ idxs -> isEmptyAt b i = true -> a ≺ beta ->
     exists s, rec a beta (<[i:=AI.aiPlayer self]> b) = Some (s, <[i:=AI.aiPlayer self]> b) /\
       failSoft a beta s (g i)) ->
  forall m M, M ≼ m -> (alpha0 ≺ m -> M = m) -> num_max alpha0 m ≺ beta ->
  exists s, AI.maxLoop self rec idxs m (num_max alpha0 m) beta b = Some (s, b) /\
    failSoft alpha0 beta s (maxOver g b idxs M).
Proof.
  induction idxs as [|i rest IH]; intros Hrec m M HMm Heq Hwin.
  - exists m. split; [reflexivity|]. simpl. split; [|split].
    + intros _. done.
    + intros Hb. exfalso. eapply num_lt_not_le; [|exact Hb].
      eapply num_le_lt; [apply num_max_r|exact Hwin].
    + intros Ha _. symmetry. by apply Heq.
  - assert (Hrest : forall j a, j ∈ rest -> isEmptyAt b j = true -> a ≺ beta ->
       exists s, rec a beta (<[j:=AI.aiPlayer self]> b)
                 = Some (s, <[j:=AI.aiPlayer self]> b) /\ failSoft a beta s (g j)).
    { intros j a Hj. apply Hrec. by right. }
    rewrite maxLoop_cons. cbn [maxOver].
    destruct (isEmptyAt b i) eqn:He; [|by apply IH].
    destruct (Hrec i (num_max alpha0 m)) as (s & Hcall & H1 & H2 & H3);
      [by left|done|done|].
    rewrite Hcall, place_undo by done.
    set (a := num_max alpha0 m) in *.
    assert (Hma : m ≼ a) by apply num_max_r.
    assert (Haa : alpha0 ≼ a) by apply num_max_l.
    destruct (num_leb beta (num_max a s)) eqn:Hprune.
    + (* pruned *)
      assert (Hbs : beta ≼ s).
      { destruct (num_total beta s) as [|Hlt]; [done|]. exfalso.
        eapply num_lt_not_le; [|exact Hprune]. by apply num_max_lub_lt. }
      assert (Hms : m ≼ s).
      { eapply num_le_trans; [exact Hma|]. eapply num_le_trans; [|exact Hbs].
        by apply num_lt_weaken. }
      rewrite (num_max_eq_l s m Hms).
      eexists. split; [reflexivity|]. split; [|split].
      * intros Hsa. exfalso. eapply num_lt_not_le; [|exact Hsa].
        eapply num_le_lt; [exact Haa|]. by eapply num_lt_le_trans.
      * intros _. eapply num_le_trans; [by apply H2|].
        eapply num_le_trans; [apply num_max_l|apply maxOver_ge].
      * intros _ Hsb. congruence.
    + (* not pruned *)
      assert (Hsb : s ≺ beta).
      { eapply num_le_lt; [apply num_max_r|exact Hprune]. }
      subst a. rewrite (num_max_assoc alpha0 m s) in *.
      set (a := num_max alpha0 m) in *.
      apply IH; [done| | |done].
      * apply num_max_lub.
        -- destruct (num_total s a) as [Hsa|Has].
           ++ eapply num_le_trans; [by apply H1|apply num_max_l].
           ++ rewrite <- (H3 Has Hsb). apply num_max_l.
        -- eapply num_le_trans; [exact HMm|apply num_max_r].
      * intros Ham'. destruct (num_total s a) as [Hsa|Has].
        -- destruct (num_total m alpha0) as [Hma0|Ha0m].
           ++ exfalso. eapply num_lt_not_le; [exact Ham'|].
              apply num_max_lub; [|done].
              eapply num_le_trans; [exact Hsa|]. subst a.
              rewrite (num_max_eq_l alpha0 m Hma0). apply num_le_refl.
           ++ assert (a = m) as Hame.
              { subst a. apply num_max_eq_r. by apply num_lt_weaken. }
              idtac. rewrite Hame in Hsa. rewrite (Heq Ha0m).
              rewrite (num_max_eq_r s m Hsa). apply num_max_eq_r.
              eapply num_le_trans; [|exact Hsa]. apply H1. by rewrite Hame.
        -- rewrite <- (H3 Has Hsb).
           assert (Hms : m ≼ s).
           { eapply num_le_trans; [exact Hma|by apply num_lt_weaken]. }
           rewrite (num_max_eq_l s m Hms). apply num_max_eq_l.
           by eapply num_le_trans.
Qed.

Lemma minLoop_failSoft rec g (b : board) idxs alpha beta0 :
  (forall i bb, i ∈ idxs -> isEmptyAt b i = true -> alpha ≺ bb ->
     exists s, rec alpha bb (<[i:=AI.humanPlayer self]> b)
               = Some (s, <[i:=AI.humanPlayer self]> b) /\
       failSoft alpha bb s (g i)) ->
  forall m M, m ≼ M -> (m ≺ beta0 -> M = m) -> alpha ≺ num_min beta0 m ->
  exists s, AI.minLoop self rec idxs m alpha (num_min beta0 m) b = Some (s, b) /\
    failSoft alpha beta0 s (minOver g b idxs M).
Proof.
  induction idxs as [|i rest IH]; intros Hrec m M HmM Heq Hwin.
  - exists m. split; [reflexivity|]. simpl. split; [|split].
    + intros Ha. exfalso. eapply num_lt_not_le; [|exact Ha].
      eapply num_lt_le_trans; [exact Hwin|apply num_min_r].
    + intros _. done.
    + intros _ Hb. symmetry. by apply Heq.
  - assert (Hrest : forall j bb, j ∈ rest -> isEmptyAt b j = true -> alpha ≺ bb ->
       exists s, rec alpha bb (<[j:=AI.humanPlayer self]> b)
                 = Some (s, <[j:=AI.humanPlayer self]> b) /\ failSoft alpha bb s (g j)).
    { intros j bb Hj. apply Hrec. by right. }
    rewrite minLoop_cons. cbn [minOver].
    destruct (isEmptyAt b i) eqn:He; [|by apply IH].
    destruct (Hrec i (num_min beta0 m)) as (s & Hcall & H1 & H2 & H3);
      [by left|done|done|].
    rewrite Hcall, place_undo by done.
    set (bc := num_min beta0 m) in *.
    assert (Hbm : bc ≼ m) by apply num_min_r.
    assert (Hbb : bc ≼ beta0) by apply num_min_l.
    destruct (num_leb (num_min bc s) alpha) eqn:Hprune.
    + (* pruned *)
      assert (Hsa : s ≼ alpha).
      { destruct (num_total s alpha) as [|Hlt]; [done|]. exfalso.
        eapply num_lt_not_le; [|exact Hprune]. by apply num_min_glb_lt. }
      assert (Hsm : s ≼ m).
      { eapply num_le_trans; [exact Hsa|]. eapply num_le_trans; [|exact Hbm].
        by apply num_lt_weaken. }
      rewrite (num_min_eq_l s m Hsm).
      eexists. split; [reflexivity|]. split; [|split].
      * intros _. eapply num_le_trans; [apply minOver_le|].
        eapply num_le_trans; [apply num_min_l|by apply H1].
      * intros Hbs. exfalso. eapply num_lt_not_le; [|exact Hbs].
        eapply num_le_lt; [exact Hsa|]. by eapply num_lt_le_trans.
      * intros Has _. congruence.
    + (* not pruned *)
      assert (Has : alpha ≺ s).
      { eapply num_lt_le_trans; [exact Hprune|apply num_min_r]. }
      subst bc. rewrite (num_min_assoc beta0 m s) in *.
      set (bc := num_min beta0 m) in *.
      apply IH; [done| | |done].
      * apply num_min_glb.
        -- destruct (num_total bc s) as [Hbs|Hsb].
           ++ eapply num_le_trans; [apply num_min_l|by apply H2].
           ++ rewrite <- (H3 Has Hsb). apply num_min_l.
        -- eapply num_le_trans; [apply num_min_r|exact HmM].
      * intros Hm'b. destruct (num_total bc s) as [Hbs|Hsb].
        -- destruct (num_total beta0 m) as [Hb0m|Hmb0].
           ++ exfalso. eapply num_lt_not_le; [exact Hm'b|].
              apply num_min_glb; [|done].
              eapply num_le_trans; [|exact Hbs]. subst bc.
              rewrite (num_min_eq_l beta0 m Hb0m). apply num_le_refl.
           ++ assert (bc = m) as Hbce.
              { subst bc. apply num_min_eq_r. by apply num_lt_weaken. }
              rewrite Hbce in Hbs. rewrite (Heq Hmb0).
              rewrite (num_min_eq_r s m Hbs). apply num_min_eq_r.
              eapply num_le_trans; [exact Hbs|]. apply H2. by rewrite Hbce.
        -- rewrite <- (H3 Has Hsb).
           assert (Hsm : s ≼ m).
           { eapply num_le_trans; [by apply num_lt_weaken|exact Hbm]. }
           rewrite (num_min_eq_l s m Hsm). apply num_min_eq_l.
           by eapply num_le_trans.
Qed.

Lemma minimax_failSoft fuel : properMarks self ->
  forall (b : board) depth isMax alpha beta,
  (remaining b < fuel)%nat -> alpha ≺ beta ->
  exists s, AI.minimax self fuel depth isMax alpha beta b = Some (s, b) /\
    failSoft alpha beta s (exhaustive self fuel depth isMax b).
Proof.
  intros [Hai Hhu]. induction fuel as [|fuel IH];
    intros b depth isMax alpha beta Hfuel Hwin; [lia|].
  rewrite minimax_step. cbn [exhaustive].
  destruct (AI.checkWinner b) as [r|] eqn:Hw.
  { eexists. split; [reflexivity|]. apply failSoft_refl. }
  destruct isMax.
  - pose proof (maxLoop_failSoft (AI.minimax self fuel (depth + 1) false)
      (fun i => exhaustive self fuel (depth + 1) false (<[i:=AI.aiPlayer self]> b))
      b AI.cells alpha beta) as Hloop.
    destruct (Hloop) with (m := NegInf) (M := NegInf) as (s & Hs & Hfs).
    + intros i a Hi%cells_lt He Ha. apply IH; [|done].
      pose proof (remaining_place b i _ Hai Hi He). lia.
    + apply num_le_refl.
    + done.
    + by rewrite num_max_neg.
    + rewrite num_max_neg in Hs. by exists s.
  - pose proof (minLoop_failSoft (AI.minimax self fuel (depth + 1) true)
      (fun i => exhaustive self fuel (depth + 1) true (<[i:=AI.humanPlayer self]> b))
      b AI.cells alpha beta) as Hloop.
    destruct (Hloop) with (m := PosInf) (M := PosInf) as (s & Hs & Hfs).
    + intros i bb Hi%cells_lt He Hb. apply IH; [|done].
      pose proof (remaining_place b i _ Hhu Hi He). lia.
    + apply num_le_refl.
    + done.
    + by rewrite num_min_pos.
    + rewrite num_min_pos in Hs. by exists s.
Qed.

End Pruning.

(** X1 — Pruning does not change the score.  Called with the full window
    [(-Infinity, Infinity)], as [getBestMove] does, [minimax] returns the
    value of the exhaustive minimax search of the position.  With any
    window [alpha < beta] it returns that value when the result lies
    strictly inside the window, an upper bound of the value when the
    result is at most [alpha], and a lower bound when it is at least
    [beta]. *)
Theorem pruning_is_sound (self : AI.TicTacToeAI) (fuel : nat) (depth : Z)
    (isMaximizing : bool) (b : board) :
  properMarks self -> (remaining b < fuel)%nat ->
  AI.minimax self fuel depth isMaximizing NegInf PosInf b
  = Some (exhaustive self fuel depth isMaximizing b, b) /\
  forall alpha beta, num_gtb beta alpha = true ->
    exists s, AI.minimax self fuel depth isMaximizing alpha beta b = Some (s, b) /\
      (num_leb s alpha = true ->
         num_leb (exhaustive self fuel depth isMaximizing b) s = true) /\
      (num_leb beta s = true ->
         num_leb s (exhaustive self fuel depth isMaximizing b) = true) /\
      (num_gtb s alpha = true -> num_gtb beta s = true ->
         s = exhaustive self fuel depth isMaximizing b).
Proof.
  intros Hm Hfuel. split.
  - destruct (minimax_failSoft self fuel Hm b depth isMaximizing NegInf PosInf Hfuel)
      as (s & Hs & Hfs); [done|].
    by rewrite Hs, (failSoft_full _ _ Hfs).
  - intros alpha beta Hwin%num_gtb_lt.
    destruct (minimax_failSoft self fuel Hm b depth isMaximizing alpha beta Hfuel Hwin)
      as (s & Hs & H1 & H2 & H3).
    exists s. split; [done|]. split; [done|]. split; [done|].
    intros Ha%num_gtb_lt Hb%num_gtb_lt. by apply H3.
Qed.

Lemma pruning_is_sound_witness :
  AI.minimax Game.ai 9 0 false NegInf PosInf
    [O; Empty; Empty; Empty; X; Empty; Empty; Empty; X]
  = Some (exhaustive Game.ai 9 0 false [O; Empty; Empty; Empty; X; Empty; Empty; Empty; X],
          [O; Empty; Empty; Empty; X; Empty; Empty; Empty; X]).
Proof.
  refine (proj1 (pruning_is_sound Game.ai 9 0 false
            [O; Empty; Empty; Empty; X; Empty; Empty; Empty; X] _ _)).
  - split; discriminate.
  - vm_compute. lia.
Defined.

(** ** The range of the scores *)

Lemma num_max_within lo hi a b :
  within lo hi a -> b = NegInf \/ within lo hi b -> within lo hi (num_max a b).
Proof.
  intros (x & -> & Hx) [->|(y & -> & Hy)]; unfold num_max; simpl.
  - by exists x.
  - destruct (x <=? y); [by exists y|by exists x].
Qed.

Lemma num_min_within lo hi a b :
  within lo hi a -> b = PosInf \/ within lo hi b -> within lo hi (num_min a b).
Proof.
  intros (x & -> & Hx) [->|(y & -> & Hy)]; unfold num_min; simpl.
  - by exists x.
  - destruct (x <=? y); [by exists x|by exists y].
Qed.

Lemma maxOver_within lo hi g (b : board) idxs :
  (forall i, i ∈ idxs -> isEmptyAt b i = true -> within lo hi (g i)) ->
  forall acc, acc = NegInf \/ within lo hi acc ->
  (within lo hi acc \/ exists i, i ∈ idxs /\ isEmptyAt b i = true) ->
  within lo hi (maxOver g b idxs acc).
Proof.
  induction idxs as [|i rest IH]; intros Hg acc Hacc Hne; simpl.
  - destruct Hne as [|(i & Hi & _)]; [done|]. by apply elem_of_nil in Hi.
  - assert (Hrest : forall j, j ∈ rest -> isEmptyAt b j = true -> within lo hi (g j)).
    { intros j Hj. apply Hg. by right. }
    destruct (isEmptyAt b i) eqn:He.
    + assert (within lo hi (num_max (g i) acc)).
      { apply num_max_within; [|done]. apply Hg; [by left|done]. }
      apply IH; auto.
    + apply IH; [done|done|]. destruct Hne as [|(j & Hj & Hje)]; [by left|].
      right. exists j. split; [|done].
      apply elem_of_cons in Hj as [->|]; [congruence|done].
Qed.

Lemma minOver_within lo hi g (b : board) idxs :
  (forall i, i ∈ idxs -> isEmptyAt b i = true -> within lo hi (g i)) ->
  forall acc, acc = PosInf \/ within lo hi acc ->
  (within lo hi acc \/ exists i, i ∈ idxs /\ isEmptyAt b i = true) ->
  within lo hi (minOver g b idxs acc).
Proof.
  induction idxs as [|i rest IH]; intros Hg acc Hacc Hne; simpl.
  - destruct Hne as [|(i & Hi & _)]; [done|]. by apply elem_of_nil in Hi.
  - assert (Hrest : forall j, j ∈ rest -> isEmptyAt b j = true -> within lo hi (g j)).
    { intros j Hj. apply Hg. by right. }
    destruct (isEmptyAt b i) eqn:He.
    + assert (within lo hi (num_min (g i) acc)).
      { apply num_min_within; [|done]. apply Hg; [by left|done]. }
      apply IH; auto.
    + apply IH; [done|done|]. destruct Hne as [|(j & Hj & Hje)]; [by left|].
      right. exists j. split; [|done].
      apply elem_of_cons in Hj as [->|]; [congruence|done].
Qed.

Lemma within_weaken lo hi lo' hi' s :
  lo' <= lo -> hi <= hi' -> within lo hi s -> within lo' hi' s.
Proof. intros ? ? (z & -> & ?). exists z. split; [done|lia]. Qed.

Section Range.

Variable self : AI.TicTacToeAI.
Hypothesis Hmarks : properMarks self.

Lemma terminalScore_within r d :
  d <= 10 -> within (d - 10) (10 - d) (AI.terminalScore self r d).
Proof.
  intros Hd. unfold AI.terminalScore. repeat case_bool_decide; eexists; split; try reflexivity; lia.
Qed.

(** Every value of the exhaustive search lies between [d - 10] and
    [10 - d]; on an unfinished board between [d - 9] and [9 - d]. *)
Lemma exhaustive_within fuel : forall (b : board) d isMax,
  length b = 9%nat -> (remaining b < fuel)%nat -> d + Z.of_nat (remaining b) <= 10 ->
  within (d - 10) (10 - d) (exhaustive self fuel d isMax b) /\
  (AI.checkWinner b = None -> within (d - 9) (9 - d) (exhaustive self fuel d isMax b)).
Proof.
  destruct Hmarks as [Hai Hhu].
  induction fuel as [|fuel IH]; intros b d isMax Hlen Hfuel Hd; [lia|].
  cbn [exhaustive]. destruct (AI.checkWinner b) as [r|] eqn:Hw.
  { split; [|discriminate]. apply terminalScore_within. lia. }
  assert (Hopen : within (d - 9) (9 - d)
            (if isMax
             then maxOver (fun i => exhaustive self fuel (d + 1) false
                                      (<[i:=AI.aiPlayer self]> b)) b AI.cells NegInf
             else minOver (fun i => exhaustive self fuel (d + 1) true
                                      (<[i:=AI.humanPlayer self]> b)) b AI.cells PosInf)).
  { assert (Hchild : forall m isMax', m <> Empty -> forall i, i ∈ AI.cells ->
              isEmptyAt b i = true ->
              within (d - 9) (9 - d) (exhaustive self fuel (d + 1) isMax' (<[i:=m]> b))).
    { intros m isMax' Hm i Hi%cells_lt He.
      pose proof (remaining_place b i m Hm Hi He) as Hlt.
      destruct (IH (<[i:=m]> b) (d + 1) isMax') as [Hin _];
        [by rewrite length_insert|lia|lia|].
      eapply within_weaken; [| |exact Hin]; lia. }
    destruct isMax.
    - apply maxOver_within; [by apply Hchild|by left|].
      right. by apply checkWinner_None_empty.
    - apply minOver_within; [by apply Hchild|by left|].
      right. by apply checkWinner_None_empty. }
  split; [|done]. eapply within_weaken; [| |exact Hopen]; lia.
Qed.

Lemma cellScore_exhaustive fuel (b : board) i :
  (remaining (<[i:=AI.aiPlayer self]> b) < fuel)%nat ->
  cellScore self fuel b i
  = Some (exhaustive self fuel 0 false (<[i:=AI.aiPlayer self]> b)).
Proof.
  intros Hfuel. unfold cellScore.
  destruct (minimax_failSoft self fuel Hmarks (<[i:=AI.aiPlayer self]> b) 0 false
              NegInf PosInf Hfuel) as (s & Hs & Hfs); [done|].
  by rewrite Hs, (failSoft_full _ _ Hfs).
Qed.

End Range.

Lemma remaining_place_fuel (fuel : nat) (b : board) i m :
  m <> Empty -> length b = 9%nat -> (9 <= fuel)%nat -> b !! i = Some Empty ->
  (remaining (<[i:=m]> b) < fuel)%nat /\ (remaining (<[i:=m]> b) <= 8)%nat.
Proof.
  intros Hm Hlen Hfuel Hi.
  assert (i < 9)%nat by (apply lookup_lt_Some in Hi; lia).
  pose proof (remaining_place b i m Hm H (proj2 (isEmptyAt_true b i) Hi)).
  pose proof (remaining_le_9 b). lia.
Qed.

(** X3 — The range of the scores.  The score that [getBestMove] gives to
    an empty cell is an integer between -10 and 10, and it is 10 exactly
    when [checkWinner] names the computer on the board with the
    computer's mark placed on that cell. *)
Theorem cellScore_range (self : AI.TicTacToeAI) (fuel : nat) (b : board) (i : nat) :
  properMarks self -> length b = 9%nat -> (9 <= fuel)%nat -> b !! i = Some Empty ->
  exists z, cellScore self fuel b i = Some (Fin z) /\ -10 <= z <= 10 /\
    (z = 10 <->
     AI.checkWinner (<[i:=AI.aiPlayer self]> b) = Some (AI.Winner (AI.aiPlayer self))).
Proof.
  intros Hm Hlen Hfuel Hi.
  destruct (remaining_place_fuel fuel b i _ (proj1 Hm) Hlen Hfuel Hi) as [Hr Hr8].
  rewrite (cellScore_exhaustive self Hm) by done.
  destruct (exhaustive_within self Hm fuel (<[i:=AI.aiPlayer self]> b) 0 false)
    as [(z & Hz & Hrange) Hopen]; [by rewrite length_insert|done|lia|].
  exists z. rewrite Hz. split; [done|]. split; [lia|].
  destruct fuel as [|fuel]; [lia|]. cbn [exhaustive] in *.
  destruct (AI.checkWinner (<[i:=AI.aiPlayer self]> b)) as [r|] eqn:Hw.
  - unfold AI.terminalScore in Hz. repeat case_bool_decide; simplify_eq; split; (congruence || lia).
  - destruct (Hopen eq_refl) as (z' & Hz' & Hr'). rewrite Hz in Hz'. simplify_eq.
    split; [lia|discriminate].
Qed.

Lemma cellScore_range_witness :
  exists z, cellScore Game.ai 9 [X; X; Empty; O; O; Empty; Empty; Empty; Empty] 5
            = Some (Fin z) /\ -10 <= z <= 10 /\
    (z = 10 <->
     AI.checkWinner (<[5%nat:=O]> [X; X; Empty; O; O; Empty; Empty; Empty; Empty])
     = Some (AI.Winner O)).
Proof.
  apply (cellScore_range Game.ai 9 [X; X; Empty; O; O; Empty; Empty; Empty; Empty] 5).
  - split; discriminate.
  - reflexivity.
  - lia.
  - reflexivity.
Defined.

(** X2 — The chosen move maximizes the exhaustive value.  On a board
    with an empty cell [getBestMove] returns the first empty cell, in the
    order of the indices, whose exhaustive minimax value (the opponent to
    move next) is the greatest. *)
Theorem getBestMove_exhaustive (self : AI.TicTacToeAI) (fuel : nat) (b : board) :
  properMarks self -> length b = 9%nat -> (9 <= fuel)%nat -> Empty ∈ b ->
  exists k z, AI.getBestMove self fuel b = Some (Z.of_nat k, b) /\
    b !! k = Some Empty /\
    exhaustive self fuel 0 false (<[k:=AI.aiPlayer self]> b) = Fin z /\
    forall j, b !! j = Some Empty ->
      exists zj, exhaustive self fuel 0 false (<[j:=AI.aiPlayer self]> b) = Fin zj /\
        zj <= z /\ ((j < k)%nat -> zj < z).
Proof.
  intros Hm Hlen Hfuel He.
  destruct (getBestMove_cases self fuel b Hm Hlen Hfuel)
    as [[_ Hn]|(k & z & Hrun & _ & Hk & Hz & Hall)]; [done|].
  exists k, z. split; [done|]. split; [done|].
  assert (Hex : forall j, b !! j = Some Empty ->
            cellScore self fuel b j
            = Some (exhaustive self fuel 0 false (<[j:=AI.aiPlayer self]> b))).
  { intros j Hj. apply (cellScore_exhaustive self Hm).
    by apply remaining_place_fuel; [apply Hm|..]. }
  split.
  - rewrite (Hex k Hk) in Hz. congruence.
  - intros j Hj. destruct (Hall j Hj) as (zj & Hzj & Hle).
    exists zj. split; [|done]. rewrite (Hex j Hj) in Hzj. congruence.
Qed.

Lemma getBestMove_exhaustive_witness :
  exists k z, AI.getBestMove Game.ai 9 [X; Empty; Empty; Empty; O; Empty; Empty; Empty; X]
              = Some (Z.of_nat k, [X; Empty; Empty; Empty; O; Empty; Empty; Empty; X]) /\
    [X; Empty; Empty; Empty; O; Empty; Empty; Empty; X] !! k = Some Empty /\
    exhaustive Game.ai 9 0 false
      (<[k:=O]> [X; Empty; Empty; Empty; O; Empty; Empty; Empty; X]) = Fin z /\
    forall j, [X; Empty; Empty; Empty; O; Empty; Empty; Empty; X] !! j = Some Empty ->
      exists zj, exhaustive Game.ai 9 0 false
                   (<[j:=O]> [X; Empty; Empty; Empty; O; Empty; Empty; Empty; X]) = Fin zj /\
        zj <= z /\ ((j < k)%nat -> zj < z).
Proof.
  apply (getBestMove_exhaustive Game.ai 9
           [X; Empty; Empty; Empty; O; Empty; Empty; Empty; X]).
  - split; discriminate.
  - reflexivity.
  - lia.
  - right. left.
Defined.

(** X4 — An immediate win is taken.  On a board without a filled line,
    if some empty cell completes a line for the computer, [getBestMove]
    returns the smallest such cell. *)
Theorem getBestMove_takes_win (self : AI.TicTacToeAI) (fuel : nat) (b : board) (i : nat) :
  properMarks self -> length b = 9%nat -> (9 <= fuel)%nat -> noLine b ->
  completesLine b (AI.aiPlayer self) i ->
  (forall j, (j < i)%nat -> ~ completesLine b (AI.aiPlayer self) j) ->
  AI.getBestMove self fuel b = Some (Z.of_nat i, b).
Proof.
  intros Hm Hlen Hfuel Hno Hi Hsmall.
  assert (Hwin : forall j, b !! j = Some Empty ->
            (AI.checkWinner (<[j:=AI.aiPlayer self]> b)
             = Some (AI.Winner (AI.aiPlayer self)) <-> completesLine b (AI.aiPlayer self) j)).
  { intros j Hj. rewrite <- (winsAt_completes b _ j (proj1 Hm) Hno).
    unfold winsAt. rewrite (proj2 (isEmptyAt_true b j) Hj). simpl.
    by rewrite bool_decide_eq_true. }
  destruct (getBestMove_cases self fuel b Hm Hlen Hfuel)
    as [[_ Hn]|(k & z & Hrun & _ & Hk & Hz & Hall)].
  { destruct Hn. destruct Hi as [Hi _]. by eapply list_elem_of_lookup_2. }
  rewrite Hrun. destruct Hi as [Hie Hi'].
  destruct (cellScore_range self fuel b i Hm Hlen Hfuel Hie) as (zi & Hzi & _ & Hten).
  destruct (cellScore_range self fuel b k Hm Hlen Hfuel Hk) as (zk & Hzk & Hrk & Htenk).
  destruct (Hall i Hie) as (zi' & Hzi' & Hle & Hlt).
  assert (zi = 10) by (apply Hten, Hwin; [done|by split]).
  assert (zk = z) by congruence. assert (zi' = zi) by congruence. subst.
  assert (z = 10) by lia. subst z.
  assert (completesLine b (AI.aiPlayer self) k) by (by apply Hwin, Htenk).
  destruct (lt_eq_lt_dec i k) as [[Hik|Heq]|Hki]; [lia|by subst k|].
  by destruct (Hsmall k Hki).
Qed.

Lemma getBestMove_takes_win_witness :
  AI.getBestMove Game.ai 9 [X; X; Empty; O; O; Empty; Empty; Empty; Empty]
  = Some (5, [X; X; Empty; O; O; Empty; Empty; Empty; Empty]).
Proof.
  apply (getBestMove_takes_win Game.ai 9
           [X; X; Empty; O; O; Empty; Empty; Empty; Empty] 5).
  - split; discriminate.
  - reflexivity.
  - lia.
  - apply firstLine_noLine. reflexivity.
  - apply completesLine_iff. reflexivity.
  - intros j Hj Hc. apply completesLine_iff in Hc.
    do 5 (destruct j as [|j]; [discriminate Hc|]). lia.
Defined.

(** ** Blocking *)

Lemma exhaustive_step self fuel d isMax (b : board) :
  exhaustive self (S fuel) d isMax b =
  match AI.checkWinner b with
  | Some r => AI.terminalScore self r d
  | None =>
      if isMax
      then maxOver (fun i => exhaustive self fuel (d + 1) false
                               (<[i := AI.aiPlayer self]> b)) b AI.cells NegInf
      else minOver (fun i => exhaustive self fuel (d + 1) true
                               (<[i := AI.humanPlayer self]> b)) b AI.cells PosInf
  end.
Proof. reflexivity. Qed.

Lemma noLine_place (b : board) m j :
  noLine b -> b !! j = Some Empty -> ~ completesLine b m j -> noLine (<[j:=m]> b).
Proof.
  intros Hno Hj Hnc m' [Hm' (p & Hin & Hl)].
  destruct (onLine_dec j p) as [Hon|Hoff].
  - assert (m' = m) as ->.
    { eapply holdsLine_on; [|exact Hon|exact Hl]. by eapply lookup_lt_Some. }
    apply Hnc. split; [done|]. by exists p.
  - apply (Hno m'). split; [done|]. exists p. split; [done|]. by eapply holdsLine_off.
Qed.

Lemma holdsLine_impl (b b' : board) m p :
  (forall x, b !! x = Some m -> b' !! x = Some m) -> holdsLine b m p -> holdsLine b' m p.
Proof. destruct p as [[x y] z]. unfold holdsLine. intros H (? & ? & ?). auto. Qed.

Lemma completesLine_after (b : board) m m' j t :
  m' <> Empty -> b !! j = Some Empty -> j <> t ->
  completesLine b m' t -> completesLine (<[j:=m]> b) m' t.
Proof.
  intros Hm' Hj Hne [Ht (p & Hin & Hon & Hl)]. split.
  - by rewrite list_lookup_insert_ne.
  - exists p. split; [done|]. split; [done|].
    eapply holdsLine_impl; [|exact Hl]. intros x Hx.
    destruct (decide (t = x)) as [->|Htx].
    + apply list_lookup_insert_eq. rewrite length_insert. by eapply lookup_lt_Some.
    + rewrite list_lookup_insert_ne in Hx by done.
      rewrite list_lookup_insert_ne by done.
      rewrite list_lookup_insert_ne; [done|]. intros ->. congruence.
Qed.

Lemma completesLine_before (b : board) m m' t u :
  m <> m' -> m <> Empty -> b !! t = Some Empty ->
  completesLine (<[t:=m]> b) m' u -> completesLine b m' u.
Proof.
  intros Hmm Hm Ht [Hu (p & Hin & Hon & Hl)].
  assert (Htlen : (t < length b)%nat) by by eapply lookup_lt_Some.
  assert (Hut : u <> t).
  { intros ->. rewrite list_lookup_insert_eq in Hu by done. congruence. }
  rewrite list_lookup_insert_ne in Hu by done. split; [done|].
  exists p. split; [done|]. split; [done|].
  eapply holdsLine_impl; [|exact Hl]. intros x Hx.
  destruct (decide (u = x)) as [->|Hux].
  - apply list_lookup_insert_eq. by eapply lookup_lt_Some.
  - rewrite list_lookup_insert_ne in Hx by done.
    rewrite list_lookup_insert_ne by done.
    destruct (decide (t = x)) as [->|Htx].
    + rewrite list_lookup_insert_eq in Hx by done. congruence.
    + by rewrite list_lookup_insert_ne in Hx.
Qed.

Lemma minOver_le_elem g (b : board) idxs t :
  t ∈ idxs -> isEmptyAt b t = true -> forall acc, minOver g b idxs acc ≼ g t.
Proof.
  induction idxs as [|i rest IH]; intros Hin He acc; [by apply elem_of_nil in Hin|].
  simpl. apply elem_of_cons in Hin as [->|Hin].
  - rewrite He. eapply num_le_trans; [apply minOver_le|apply num_min_l].
  - destruct (isEmptyAt b i); by apply IH.
Qed.

Lemma checkWinner_place_completes (b : board) m j :
  m <> Empty -> noLine b -> completesLine b m j ->
  AI.checkWinner (<[j:=m]> b) = Some (AI.Winner m).
Proof.
  intros Hm Hno Hc. pose proof (proj2 (winsAt_completes b m j Hm Hno) Hc) as Hw.
  unfold winsAt in Hw. apply andb_true_iff in Hw as [_ Hw].
  by apply bool_decide_eq_true in Hw.
Qed.

(** X5 — A single threat is blocked.  On a board without a filled line
    where the computer cannot win at once and the opponent threatens to
    complete a line on exactly one cell, [getBestMove] returns that
    cell. *)
Theorem getBestMove_blocks (self : AI.TicTacToeAI) (fuel : nat) (b : board) (t : nat) :
  properMarks self -> AI.aiPlayer self <> AI.humanPlayer self ->
  length b = 9%nat -> (9 <= fuel)%nat -> noLine b ->
  (forall j, ~ completesLine b (AI.aiPlayer self) j) ->
  completesLine b (AI.humanPlayer self) t ->
  (forall u, completesLine b (AI.humanPlayer self) u -> u = t) ->
  AI.getBestMove self fuel b = Some (Z.of_nat t, b).
Proof.
  intros Hm Hne Hlen Hfuel Hno Hnowin Ht Honly.
  destruct Hm as [Hai Hhu]. pose proof (conj Hai Hhu : properMarks self) as Hm.
  pose proof (proj1 Ht) as Hte.
  set (ai := AI.aiPlayer self) in *. set (hu := AI.humanPlayer self) in *.
  destruct fuel as [|[|f]]; [lia|lia|].
  (* every other cell loses at once *)
  assert (Hlose : forall j, b !! j = Some Empty -> j <> t ->
            exhaustive self (S (S f)) 0 false (<[j:=ai]> b) = Fin (-9)).
  { intros j Hj Hjt.
    destruct (remaining_place_fuel (S (S f)) b j ai Hai Hlen Hfuel Hj) as [Hr Hr8].
    assert (Hnoj : noLine (<[j:=ai]> b)) by (apply noLine_place; auto).
    assert (Htj : <[j:=ai]> b !! t = Some Empty) by by rewrite list_lookup_insert_ne.
    assert (Hopen : AI.checkWinner (<[j:=ai]> b) = None).
    { apply checkWinner_None. split; [done|]. by eapply list_elem_of_lookup_2. }
    destruct (exhaustive_within self Hm (S (S f)) (<[j:=ai]> b) 0 false)
      as [_ Hin]; [by rewrite length_insert|done|lia|].
    destruct (Hin Hopen) as (z & Hz & Hzr). rewrite Hz. f_equal.
    rewrite exhaustive_step, Hopen in Hz.
    pose proof (minOver_le_elem
      (fun i => exhaustive self (S f) (0 + 1) true (<[i:=hu]> (<[j:=ai]> b)))
      (<[j:=ai]> b) AI.cells t) as Hle.
    specialize (Hle (proj2 (cells_lt t) ltac:(apply lookup_lt_Some in Hte; lia))
                    (proj2 (isEmptyAt_true _ _) Htj) PosInf).
    fold ai hu in Hz. rewrite Hz in Hle. cbv beta in Hle.
    rewrite exhaustive_step in Hle.
    rewrite (checkWinner_place_completes (<[j:=ai]> b) hu t) in Hle;
      [|done|done|by apply completesLine_after].
    unfold AI.terminalScore in Hle.
    rewrite bool_decide_eq_false_2 in Hle by (fold ai hu; congruence).
    rewrite bool_decide_eq_true_2 in Hle by done.
    apply num_leb_fin in Hle. lia. }
  (* the block does not *)
  assert (Hhold : exists z, exhaustive self (S (S f)) 0 false (<[t:=ai]> b) = Fin z /\ -8 <= z).
  { destruct (remaining_place_fuel (S (S f)) b t ai Hai Hlen Hfuel Hte) as [Hr Hr8].
    assert (Hnot : noLine (<[t:=ai]> b)) by (apply noLine_place; auto).
    rewrite exhaustive_step.
    destruct (AI.checkWinner (<[t:=ai]> b)) as [r|] eqn:Hw.
    { destruct r as [m|].
      - apply checkWinner_winner, firstLine_hasLine in Hw. by destruct (Hnot m).
      - exists 0. split; [|lia]. unfold AI.terminalScore.
        by rewrite !bool_decide_eq_false_2. }
    assert (Hin : within (-8) 9
              (minOver (fun i => exhaustive self (S f) (0 + 1) true
                                   (<[i:=hu]> (<[t:=ai]> b)))
                 (<[t:=ai]> b) AI.cells PosInf)).
    { apply minOver_within; [|by left|right; apply checkWinner_None_empty;
                                    [done|by rewrite length_insert]].
      intros u Hu%cells_lt Hue.
      pose proof (remaining_place (<[t:=ai]> b) u hu Hhu Hu Hue) as Hru.
      destruct (exhaustive_within self Hm (S f) (<[u:=hu]> (<[t:=ai]> b)) (0 + 1) true)
        as [Hall Hopen']; [by rewrite !length_insert|lia|lia|].
      destruct (AI.checkWinner (<[u:=hu]> (<[t:=ai]> b))) as [r|] eqn:Hwu.
      - destruct r as [m|].
        + exfalso. apply checkWinner_winner, firstLine_hasLine in Hwu.
          destruct Hwu as [Hmne (p & Hpin & Hl)].
          apply isEmptyAt_true in Hue.
          destruct (onLine_dec u p) as [Hon|Hoff].
          * assert (m = hu) as ->.
            { eapply holdsLine_on; [|exact Hon|exact Hl]. by eapply lookup_lt_Some. }
            assert (Hcu : completesLine (<[t:=ai]> b) hu u).
            { split; [done|]. by exists p. }
            apply (completesLine_before b ai hu t u Hne Hai Hte) in Hcu.
            apply Honly in Hcu. subst u.
            rewrite list_lookup_insert_eq in Hue by (by eapply lookup_lt_Some).
            congruence.
          * apply (Hnot m). split; [done|]. exists p. split; [done|].
            by eapply holdsLine_off.
        + exists 0. split; [|lia]. rewrite exhaustive_step, Hwu.
          unfold AI.terminalScore. by rewrite !bool_decide_eq_false_2.
      - eapply within_weaken; [| |exact (Hopen' eq_refl)]; lia. }
    destruct Hin as (z & Hz & Hzr). exists z. split; [done|lia]. }
  destruct (getBestMove_cases self (S (S f)) b Hm Hlen Hfuel)
    as [[_ Hn]|(k & z & Hrun & _ & Hk & Hz & Hall)].
  { destruct Hn. by eapply list_elem_of_lookup_2. }
  rewrite Hrun. destruct (decide (k = t)) as [->|Hkt]; [done|]. exfalso.
  assert (Hex : forall j, b !! j = Some Empty ->
            cellScore self (S (S f)) b j
            = Some (exhaustive self (S (S f)) 0 false (<[j:=ai]> b))).
  { intros j Hj. apply (cellScore_exhaustive self Hm).
    by apply remaining_place_fuel. }
  rewrite (Hex k Hk), (Hlose k Hk Hkt) in Hz.
  destruct (Hall t Hte) as (zt & Hzt & Hle & _).
  destruct Hhold as (z' & Hz' & Hge). rewrite (Hex t Hte), Hz' in Hzt.
  simplify_eq. lia.
Qed.

Lemma getBestMove_blocks_witness :
  AI.getBestMove Game.ai 9 [X; X; Empty; Empty; O; Empty; Empty; Empty; Empty]
  = Some (2, [X; X; Empty; Empty; O; Empty; Empty; Empty; Empty]).
Proof.
  apply (getBestMove_blocks Game.ai 9
           [X; X; Empty; Empty; O; Empty; Empty; Empty; Empty] 2).
  - split; discriminate.
  - discriminate.
  - reflexivity.
  - lia.
  - apply firstLine_noLine. reflexivity.
  - intros j Hc. apply completesLine_iff in Hc.
    do 9 (destruct j as [|j]; [discriminate Hc|]). discriminate Hc.
  - apply completesLine_iff. reflexivity.
  - intros u Hc. apply completesLine_iff in Hc.
    do 9 (destruct u as [|u]; [first [reflexivity|discriminate Hc]|]). discriminate Hc.
Defined.

(** ** The answers of [checkWinner], and the easier strategies again *)

(** X6 — What [checkWinner] answers.  A mark only when that mark fills a
    line; ['draw'] exactly when no line is filled and no cell is empty;
    [null] exactly when no line is filled and a cell is empty; and some
    mark whenever a line is filled. *)
Theorem checkWinner_answers (b : board) :
  (forall m, AI.checkWinner b = Some (AI.Winner m) -> hasLine b m) /\
  (AI.checkWinner b = Some AI.DrawStr <-> noLine b /\ Empty ∉ b) /\
  (AI.checkWinner b = None <-> noLine b /\ Empty ∈ b) /\
  (forall m, hasLine b m -> exists m', AI.checkWinner b = Some (AI.Winner m')).
Proof.
  split; [|split; [|split]].
  - intros m Hw. by apply firstLine_hasLine, checkWinner_winner.
  - apply checkWinner_draw.
  - apply checkWinner_None.
  - intros m Hl. destruct (AI.firstLine b AI.winPatterns) as [m'|] eqn:Hf.
    + exists m'. by apply checkWinner_winner.
    + apply firstLine_noLine in Hf. by destruct (Hf m).
Qed.

Lemma emptyCells_spec (b : board) i :
  i ∈ AI.emptyCells b <-> (i < 9)%nat /\ b !! i = Some Empty.
Proof.
  unfold AI.emptyCells. rewrite list_elem_of_filter, cells_lt, isEmptyAt_true. tauto.
Qed.

Lemma floorTimes_lt (r : sample) n :
  (snum r < sden r)%nat -> (0 < n)%nat -> (floorTimes r n < n)%nat.
Proof.
  intros Hr Hn. unfold floorTimes. apply Nat.Div0.div_lt_upper_bound. nia.
Qed.

Lemma getRandomMove_pick (r : sample) (b : board) j :
  (snum r < sden r)%nat -> (j < 9)%nat -> b !! j = Some Empty ->
  exists i, AI.getRandomMove r b = Return (Num (Z.of_nat i)) /\
    (i < 9)%nat /\ b !! i = Some Empty.
Proof.
  intros Hr Hj Hje. unfold AI.getRandomMove.
  assert (Hn : (0 < length (AI.emptyCells b))%nat).
  { assert (Hin : j ∈ AI.emptyCells b) by by apply emptyCells_spec.
    destruct (AI.emptyCells b); [by apply elem_of_nil in Hin|simpl; lia]. }
  destruct (lookup_lt_is_Some_2 (AI.emptyCells b) _ (floorTimes_lt r _ Hr Hn)) as [i Hi].
  rewrite Hi. exists i. split; [done|].
  by apply emptyCells_spec, list_elem_of_lookup_2 with (floorTimes r (length (AI.emptyCells b))).
Qed.

(** X7 — The random move is a legal move.  On a nine-cell board with an
    empty cell, for every sample of [Math.random] in [0, 1),
    [getRandomMove] returns the index of an empty cell. *)
Theorem getRandomMove_legal (r : sample) (b : board) :
  (snum r < sden r)%nat -> length b = 9%nat -> Empty ∈ b ->
  exists i, AI.getRandomMove r b = Return (Num (Z.of_nat i)) /\
    (i < 9)%nat /\ b !! i = Some Empty.
Proof.
  intros Hr Hlen [j Hj]%list_elem_of_lookup.
  apply (getRandomMove_pick r b j); [done| |done].
  apply lookup_lt_Some in Hj. lia.
Qed.

Lemma getRandomMove_legal_witness :
  exists i, AI.getRandomMove {| snum := 2; sden := 3 |}
              [X; Empty; O; Empty; X; Empty; Empty; O; Empty]
            = Return (Num (Z.of_nat i)) /\
    (i < 9)%nat /\ [X; Empty; O; Empty; X; Empty; Empty; O; Empty] !! i = Some Empty.
Proof.
  apply (getRandomMove_legal {| snum := 2; sden := 3 |}
           [X; Empty; O; Empty; X; Empty; Empty; O; Empty]).
  - simpl. lia.
  - reflexivity.
  - right. left.
Defined.

Lemma find_winsAt_empty (b : board) m l i :
  find (winsAt b m) l = Some i -> i ∈ l /\ b !! i = Some Empty.
Proof.
  intros [Hin Hw]%find_some. split; [by apply list_elem_of_In|].
  unfold winsAt in Hw. apply andb_true_iff in Hw as [He _]. by apply isEmptyAt_true.
Qed.

(** X8 — The heuristic move is a legal move.  On a nine-cell board with
    an empty cell, whichever of its three rules applies, [getMediumMove]
    returns the index of an empty cell and leaves the board as it was. *)
Theorem getMediumMove_legal (self : AI.TicTacToeAI) (r : sample) (b : board) :
  (snum r < sden r)%nat -> length b = 9%nat -> Empty ∈ b ->
  exists i, AI.getMediumMove self r b = Some (Return (Num (Z.of_nat i)), b) /\
    (i < 9)%nat /\ b !! i = Some Empty.
Proof.
  intros Hr Hlen He. rewrite getMediumMove_eq.
  destruct (find (winsAt b (AI.aiPlayer self)) AI.cells) as [i|] eqn:Hwin.
  { apply find_winsAt_empty in Hwin as [Hi%cells_lt Hie]. by exists i. }
  destruct (find (winsAt b (AI.humanPlayer self)) AI.cells) as [i|] eqn:Hblock.
  { apply find_winsAt_empty in Hblock as [Hi%cells_lt Hie]. by exists i. }
  destruct (getRandomMove_legal r b Hr Hlen He) as (i & Hi & Hi9 & Hie).
  exists i. by rewrite Hi.
Qed.

Lemma getMediumMove_legal_witness :
  exists i, AI.getMediumMove Game.ai {| snum := 2; sden := 3 |}
              [X; Empty; O; Empty; X; Empty; Empty; O; Empty]
            = Some (Return (Num (Z.of_nat i)),
                    [X; Empty; O; Empty; X; Empty; Empty; O; Empty]) /\
    (i < 9)%nat /\ [X; Empty; O; Empty; X; Empty; Empty; O; Empty] !! i = Some Empty.
Proof.
  apply (getMediumMove_legal Game.ai {| snum := 2; sden := 3 |}
           [X; Empty; O; Empty; X; Empty; Empty; O; Empty]).
  - simpl. lia.
  - reflexivity.
  - right. left.
Defined.

Lemma find_seq_none (f : nat -> bool) n : forall a,
  (forall j, (a <= j < a + n)%nat -> f j = false) -> find f (seq a n) = None.
Proof.
  induction n as [|n IH]; intros a H; [reflexivity|].
  cbn [seq find]. rewrite (H a) by lia. apply IH. intros j Hj. apply H. lia.
Qed.

(** X9 — The heuristic blocks when it cannot win.  On a board without a
    filled line where no cell completes a line for the computer, if some
    empty cell completes a line for the opponent, [getMediumMove] returns
    the smallest such cell. *)
Theorem getMediumMove_blocks (self : AI.TicTacToeAI) (r : sample) (b : board) (t : nat) :
  properMarks self -> noLine b ->
  (forall j, ~ completesLine b (AI.aiPlayer self) j) ->
  completesLine b (AI.humanPlayer self) t ->
  (forall j, (j < t)%nat -> ~ completesLine b (AI.humanPlayer self) j) ->
  AI.getMediumMove self r b = Some (Return (Num (Z.of_nat t)), b).
Proof.
  intros [Hai Hhu] Hno Hnowin Ht Hsmall. rewrite getMediumMove_eq.
  assert (H9 : (t < 9)%nat).
  { destruct Ht as [_ (p & Hin & Hon & _)]. unfold AI.winPatterns in Hin.
    repeat (apply elem_of_cons in Hin as [->|Hin];
            [unfold onLine in Hon; lia|]).
    by apply elem_of_nil in Hin. }
  unfold AI.cells. rewrite find_seq_none.
  - rewrite (find_seq_first _ 9 0 t); [done|lia| |].
    + by apply winsAt_completes.
    + intros j Hj. destruct (winsAt b (AI.humanPlayer self) j) eqn:Hw; [|done].
      apply winsAt_completes in Hw; [|done|done]. destruct (Hsmall j); [lia|done].
  - intros j _. destruct (winsAt b (AI.aiPlayer self) j) eqn:Hw; [|done].
    apply winsAt_completes in Hw; [|done|done]. by destruct (Hnowin j).
Qed.

Lemma getMediumMove_blocks_witness :
  AI.getMediumMove Game.ai {| snum := 1; sden := 2 |}
    [X; X; Empty; Empty; O; Empty; Empty; Empty; Empty]
  = Some (Return (Num 2), [X; X; Empty; Empty; O; Empty; Empty; Empty; Empty]).
Proof.
  apply (getMediumMove_blocks Game.ai {| snum := 1; sden := 2 |}
           [X; X; Empty; Empty; O; Empty; Empty; Empty; Empty] 2).
  - split; discriminate.
  - apply firstLine_noLine. reflexivity.
  - intros j Hc. apply completesLine_iff in Hc.
    do 9 (destruct j as [|j]; [discriminate Hc|]). discriminate Hc.
  - apply completesLine_iff. reflexivity.
  - intros j Hj Hc. apply completesLine_iff in Hc.
    do 2 (destruct j as [|j]; [discriminate Hc|]). lia.
Defined.

(** * Further properties of the game script *)

Lemma checkGameStatus_keeps (st : Game.gameState) :
  let st' := snd (Game.checkGameStatus st) in
  Game.board_ st' = Game.board_ st /\
  Game.moveHistory st' = Game.moveHistory st /\
  Game.currentPlayer st' = Game.currentPlayer st /\
  Game.gameMode st' = Game.gameMode st /\
  Game.isProcessing st' = Game.isProcessing st.
Proof.
  unfold Game.checkGameStatus.
  destruct (Game.findWin _ _) as [[w p]|]; simpl; done.
Qed.

Lemma coherent_ext (st st' : Game.gameState) :
  Game.board_ st' = Game.board_ st ->
  Game.moveHistory st' = Game.moveHistory st ->
  Game.currentPlayer st' = Game.currentPlayer st ->
  coherent st -> coherent st'.
Proof.
  unfold coherent, consistent. intros -> -> ->. done.
Qed.

Lemma makeMove_coherent (i : nat) (st : Game.gameState) :
  coherent st -> Game.board_ st !! i = Some Empty -> coherent (Game.makeMove i st).
Proof.
  intros [Hc Hrec] Hi.
  destruct (makeMove_valid i st Hc Hi) as (Hb & Hh & _ & Hc').
  split; [done|]. rewrite Hb, Hh. intros r [Hr|Hr]%elem_of_app.
  - destruct (Hrec r Hr) as [Hp Hcell]. split; [done|].
    rewrite list_lookup_insert_ne; [done|]. intros Heq. rewrite Heq in Hi. congruence.
  - apply list_elem_of_singleton in Hr as ->. simpl.
    split; [apply Hc|]. apply list_lookup_insert_eq. by eapply lookup_lt_Some.
Qed.

Lemma cellAt_nat (b : board) (index : Z) :
  Game.cellAt b index = Some Empty -> b !! Z.to_nat index = Some Empty.
Proof. unfold Game.cellAt. by destruct (0 <=? index). Qed.

Lemma handleCellClick_coherent (index : Z) (st : Game.gameState) :
  coherent st -> coherent (snd (fst (Game.handleCellClick index st))).
Proof.
  intros Hc. unfold Game.handleCellClick.
  destruct (Game.isProcessing st); [done|].
  case_bool_decide as Hcell; [|done]. simpl.
  destruct (Game.aiToMove st); [done|].
  pose proof (makeMove_coherent _ st Hc (cellAt_nat _ _ Hcell)) as Hc1.
  pose proof (checkGameStatus_keeps (Game.makeMove (Z.to_nat index) st)) as Hk.
  destruct (Game.checkGameStatus _) as [ended st2]. simpl in Hk.
  destruct Hk as (Hb & Hh & Hp & _).
  assert (coherent st2) by by eapply coherent_ext.
  destruct ended; [done|]. destruct (Game.aiToMove st2); [|done].
  simpl. by eapply coherent_ext; [..|exact H].
Qed.

Lemma aiTurn_coherent (fuel : nat) (st st' : Game.gameState) :
  (9 <= fuel)%nat -> coherent st -> Game.aiTurn fuel st = Some st' -> coherent st'.
Proof.
  intros Hfuel Hc Hrun.
  destruct (aiTurn_guarded fuel st) as [[_ Hr]|(k & Hk & Hr)];
    [apply Hc|done| |]; rewrite Hr in Hrun; injection Hrun as <-.
  - by eapply coherent_ext; [..|exact Hc].
  - pose proof (makeMove_coherent k st Hc Hk) as Hc1.
    pose proof (checkGameStatus_keeps (Game.makeMove k st)) as (Hb & Hh & Hp & _).
    eapply coherent_ext; [..|exact Hc1]; simpl; done.
Qed.

Lemma resetGame_coherent (st : Game.gameState) : coherent (Game.resetGame st).
Proof.
  split; [apply resetGame_consistent|]. intros r Hr. by apply elem_of_nil in Hr.
Qed.

(** X11 — History and board stay in step.  Whatever clicks, timers and
    buttons the page has seen since it loaded, the board has nine cells,
    the history has one record per mark on the board, every record names a
    cell that holds the record's mark, and the history has at most nine
    records: [handleCellClick] and the timer callback only ever call
    [makeMove] on an empty cell, so its eviction branch is never taken. *)
Theorem running_coherent (fuel : nat) (saved : option Game.scoreBoard) (w : Game.world) :
  (9 <= fuel)%nat -> Game.running fuel saved w ->
  coherent (Game.game w) /\ (length (Game.moveHistory (Game.game w)) <= 9)%nat.
Proof.
  intros Hfuel Hrun.
  assert (Hc : coherent (Game.game w)).
  { induction Hrun as [|w w' _ IH Hstep].
    - destruct saved; (split; [repeat split; done|]);
        intros r Hr; by apply elem_of_nil in Hr.
    - destruct Hstep as [w index|w n st' _ Hai|w|w m|w confirmed]; simpl.
      + by apply handleCellClick_coherent.
      + by eapply aiTurn_coherent.
      + apply resetGame_coherent.
      + apply resetGame_coherent.
      + destruct confirmed; [|done]. by eapply coherent_ext; [..|exact IH]. }
  split; [done|]. destruct Hc as [(Hlen & Hh & _) _].
  rewrite Hh, <- Hlen. apply occupied_le.
Qed.

Lemma running_coherent_witness :
  coherent (Game.makeMove 4 Game.initialState).
Proof.
  refine (proj1 (running_coherent 9 None
            {| Game.game := snd (fst (Game.handleCellClick 4 Game.initialState));
               Game.pendingTimers := 1 |} _ _)).
  - lia.
  - apply (Game.running_step 9 None (Game.loadedWorld None)); [apply Game.running_init|].
    apply (Game.step_click 9 (Game.loadedWorld None) 4).
Defined.

Lemma makeMove_keeps (i : nat) (st : Game.gameState) :
  Game.gameMode (Game.makeMove i st) = Game.gameMode st /\
  Game.isProcessing (Game.makeMove i st) = Game.isProcessing st /\
  Game.scores (Game.makeMove i st) = Game.scores st /\
  Game.currentPlayer (Game.makeMove i st) = Game.switchPlayer (Game.currentPlayer st).
Proof.
  unfold Game.makeMove.
  destruct (Game.maxMoves <=? _)%nat; [destruct (Game.moveHistory st)|]; done.
Qed.

Lemma handleCellClick_lock (index : Z) (st : Game.gameState) :
  let r := Game.handleCellClick index st in
  if snd r
  then Game.isProcessing st = false /\ Game.isProcessing (snd (fst r)) = true
  else Game.isProcessing (snd (fst r)) = Game.isProcessing st.
Proof.
  unfold Game.handleCellClick.
  destruct (Game.isProcessing st) eqn:Hp; [by simpl|].
  case_bool_decide; [|by simpl]. simpl.
  destruct (Game.aiToMove st); [by simpl|].
  pose proof (checkGameStatus_keeps (Game.makeMove (Z.to_nat index) st)) as Hk.
  destruct (Game.checkGameStatus _) as [ended st2]. simpl in Hk.
  destruct Hk as (_ & _ & _ & _ & Hp2).
  rewrite (proj1 (proj2 (makeMove_keeps _ _))) in Hp2.
  destruct ended; [simpl; congruence|].
  destruct (Game.aiToMove st2); simpl; [done|congruence].
Qed.

Lemma aiTurn_unlocks (fuel : nat) (st st' : Game.gameState) :
  Game.aiTurn fuel st = Some st' -> Game.isProcessing st' = false.
Proof.
  unfold Game.aiTurn. destruct (AI.getBestMove _ _ _) as [[m b]|]; [|discriminate].
  by intros [= <-].
Qed.

(** X12 — The lock of the page.  At any time at most one timer of the
    computer's move is pending, and [isProcessing] is set exactly while it
    is: the lock that [handleCellClick] takes is always given back by the
    timer callback, and no button touches it. *)
Theorem running_locked (fuel : nat) (saved : option Game.scoreBoard) (w : Game.world) :
  Game.running fuel saved w -> locked w.
Proof.
  induction 1 as [|w w' _ [Hle Hiff] Hstep];
    [destruct saved; (split; [simpl; lia|done])|].
  destruct Hstep as [w index|w n st' Hn Hai|w|w m|w confirmed];
    unfold locked in *; simpl.
  - pose proof (handleCellClick_lock index (Game.game w)) as Hl. simpl in Hl.
    destruct (snd (Game.handleCellClick index (Game.game w))).
    + destruct Hl as [Hp Hp']. rewrite Hp'.
      assert (Game.pendingTimers w = 0%nat).
      { destruct (decide (Game.pendingTimers w = 1%nat)) as [H1|H1]; [|lia].
        apply Hiff in H1. congruence. }
      split; [lia|]. split; intros _; [lia|done].
    + by rewrite Hl.
  - rewrite (aiTurn_unlocks _ _ _ Hai). split; [lia|]. split; [done|lia].
  - done.
  - done.
  - by destruct confirmed.
Qed.

Lemma running_locked_witness :
  locked {| Game.game := snd (fst (Game.handleCellClick 4 Game.initialState));
            Game.pendingTimers := 1 |}.
Proof.
  apply (running_locked 9 None).
  apply (Game.running_step 9 None (Game.loadedWorld None)); [apply Game.running_init|].
  apply (Game.step_click 9 (Game.loadedWorld None) 4).
Defined.

(** X13 — A finished game keeps counting.  [handleCellClick] does not
    look at [gameActive]: when a line is already filled and a click on an
    empty cell is accepted, the mark is placed, [checkGameStatus] finds a
    line again, and one more win is added to the scores. *)
Theorem win_counted_again (index : Z) (st : Game.gameState) (m : mark) :
  coherent st -> hasLine (Game.board_ st) m ->
  Game.isProcessing st = false -> Game.aiToMove st = false ->
  Game.cellAt (Game.board_ st) index = Some Empty ->
  exists st', Game.handleCellClick index st = (Return tt, st', false) /\
    Game.board_ st' = <[Z.to_nat index := Game.currentPlayer st]> (Game.board_ st) /\
    Game.winningLine st' <> None /\
    Game.scoreX (Game.scores st') + Game.scoreO (Game.scores st')
      = Game.scoreX (Game.scores st) + Game.scoreO (Game.scores st) + 1.
Proof.
  intros [Hc _] [Hm (p & Hin & Hl)] Hp Hai Hcell.
  pose proof (cellAt_nat _ _ Hcell) as Hi.
  destruct (makeMove_valid _ st Hc Hi) as (Hb & _ & _ & _).
  unfold Game.handleCellClick. rewrite Hp, Hcell, Hai.
  rewrite bool_decide_eq_true_2 by done. simpl.
  unfold Game.checkGameStatus.
  destruct (Game.findWin _ _) as [[w q]|] eqn:Hf.
  - assert (Hw : w <> Empty).
    { clear -Hf. revert Hf. generalize Game.winPatterns.
      induction l as [|q' l IH]; simpl; [discriminate|].
      destruct (AI.lineMark _ q') as [m'|] eqn:Hlm; [|done].
      intros [= <- <-]. by apply lineMark_Some in Hlm as [? _]. }
    eexists. split; [reflexivity|]. split; [done|]. split; [done|].
    cbn [Game.handleWin Game.scores].
    rewrite (proj1 (proj2 (proj2 (makeMove_keeps _ _)))).
    destruct w; [done|simpl; lia|simpl; lia].
  - exfalso. apply findWin_firstLine, firstLine_noLine in Hf.
    apply (Hf m). split; [done|]. exists p. split; [done|].
    rewrite Hb. destruct p as [[x y] z]. destruct Hl as (Hx & Hy & Hz).
    unfold holdsLine.
    rewrite !list_lookup_insert_ne; [done|intros Heq; rewrite Heq in Hi; congruence..].
Qed.

Lemma win_counted_again_witness :
  exists st', Game.handleCellClick 8
      (Game.makeMoves [0; 3; 1; 4; 2]%nat (Game.setGameMode Game.Mode2P Game.initialState))
    = (Return tt, st', false) /\
    Game.scoreX (Game.scores st') + Game.scoreO (Game.scores st') = 1.
Proof.
  destruct (win_counted_again 8
      (Game.makeMoves [0; 3; 1; 4; 2]%nat (Game.setGameMode Game.Mode2P Game.initialState)) X)
    as (st' & Hrun & _ & _ & Hscore).
  - split; [repeat split; done|]. intros r Hr. simpl in Hr.
    repeat (apply elem_of_cons in Hr as [->|Hr]; [split; [discriminate|reflexivity]|]).
    by apply elem_of_nil in Hr.
  - split; [discriminate|]. exists (0, 1, 2)%nat. split; [left|]. repeat split; reflexivity.
  - reflexivity.
  - reflexivity.
  - reflexivity.
  - exists st'. split; [exact Hrun|exact Hscore].
Defined.

Lemma findWin_Some (b : board) ps m p :
  Game.findWin b ps = Some (m, p) ->
  AI.firstLine b ps = Some m /\ p ∈ ps /\ AI.lineMark b p = Some m.
Proof.
  induction ps as [|q ps IH]; simpl; [discriminate|].
  destruct (AI.lineMark b q) as [m'|] eqn:Hl.
  - intros [= <- <-]. split; [done|]. split; [left|done].
  - intros H. destruct (IH H) as (? & ? & ?). split; [done|]. split; [by right|done].
Qed.

Lemma firstLine_findWin (b : board) ps m :
  AI.firstLine b ps = Some m -> exists p, Game.findWin b ps = Some (m, p).
Proof.
  induction ps as [|q ps IH]; simpl; [discriminate|].
  destruct (AI.lineMark b q) as [m'|]; [|done].
  intros [= <-]. by exists q.
Qed.

(** X10 — The engine and the search see the same wins.  When
    [checkWinner] names a winner on the engine's board, [checkGameStatus]
    returns [true] after [handleWin] for that same winner and for a
    pattern that this winner fills; when [checkWinner] names no winner
    (['draw'] or [null]), it returns [false] and changes nothing. *)
Theorem checkGameStatus_reports (st : Game.gameState) :
  (forall m, AI.checkWinner (Game.board_ st) = Some (AI.Winner m) ->
     exists p, Game.checkGameStatus st = (true, Game.handleWin m p st) /\
       p ∈ Game.winPatterns /\ holdsLine (Game.board_ st) m p /\ m <> Empty) /\
  ((forall m, AI.checkWinner (Game.board_ st) <> Some (AI.Winner m)) ->
     Game.checkGameStatus st = (false, st)).
Proof.
  unfold Game.checkGameStatus. split.
  - intros m Hw%checkWinner_winner.
    destruct (firstLine_findWin _ _ _ Hw) as [p Hf].
    change AI.winPatterns with Game.winPatterns in Hf. rewrite Hf.
    apply findWin_Some in Hf as (_ & Hin & Hl). apply lineMark_Some in Hl as [Hm Hl].
    by exists p.
  - intros Hno. destruct (Game.findWin _ _) as [[m p]|] eqn:Hf; [|done].
    apply findWin_Some in Hf as (Hf & _). destruct (Hno m). by apply checkWinner_winner.
Qed.

Lemma hasLine_findWin (b : board) m :
  hasLine b m -> exists w p, Game.findWin b Game.winPatterns = Some (w, p) /\ w <> Empty.
Proof.
  intros Hl. destruct (Game.findWin b Game.winPatterns) as [[w p]|] eqn:Hf.
  - exists w, p. split; [done|]. apply findWin_Some in Hf as (_ & _ & Hm).
    by apply lineMark_Some in Hm as [? _].
  - apply findWin_firstLine, firstLine_noLine in Hf. by destruct (Hf m).
Qed.

(** X14 — After the human's win against the computer nothing moves.  In
    the mode ['ai'], when X's click fills a line, the click is accepted,
    no timer is set, and every later click, on any cell, is dropped: the
    turn has passed to O, whose move was never scheduled. *)
Theorem human_win_freezes (index : Z) (st : Game.gameState) :
  coherent st -> Game.gameMode st = Game.ModeAI ->
  Game.isProcessing st = false -> Game.currentPlayer st = X ->
  Game.cellAt (Game.board_ st) index = Some Empty ->
  hasLine (<[Z.to_nat index := X]> (Game.board_ st)) X ->
  exists st', Game.handleCellClick index st = (Return tt, st', false) /\
    Game.board_ st' = <[Z.to_nat index := X]> (Game.board_ st) /\
    Game.winningLine st' <> None /\
    forall j, Game.handleCellClick j st' = (Return tt, st', false).
Proof.
  intros [Hc _] Hmode Hp Hcur Hcell Hl.
  pose proof (cellAt_nat _ _ Hcell) as Hi.
  destruct (makeMove_valid _ st Hc Hi) as (Hb & _ & Hcur' & _).
  destruct (makeMove_keeps (Z.to_nat index) st) as (Hmode' & Hp' & _).
  rewrite Hcur in Hb, Hcur'. rewrite <- Hb in Hl.
  destruct (hasLine_findWin _ _ Hl) as (w & p & Hf & _).
  unfold Game.handleCellClick at 1. rewrite Hp, Hcell.
  rewrite bool_decide_eq_true_2 by done. simpl.
  unfold Game.aiToMove at 1. rewrite Hcur, andb_false_r.
  unfold Game.checkGameStatus. rewrite Hf.
  eexists. split; [reflexivity|]. split; [done|]. split; [done|].
  intros j. unfold Game.handleCellClick, Game.aiToMove. simpl.
  rewrite Hp', Hp, Hmode', Hmode, Hcur'. simpl.
  by destruct (bool_decide _).
Qed.

Lemma human_win_freezes_witness :
  exists st', Game.handleCellClick 2
      (Game.makeMoves [0; 3; 1; 4]%nat Game.initialState)
    = (Return tt, st', false) /\
    Game.handleCellClick 8 st' = (Return tt, st', false).
Proof.
  destruct (human_win_freezes 2 (Game.makeMoves [0; 3; 1; 4]%nat Game.initialState))
    as (st' & Hrun & _ & _ & Hfrozen).
  - split; [repeat split; done|]. intros r Hr. simpl in Hr.
    repeat (apply elem_of_cons in Hr as [->|Hr]; [split; [discriminate|reflexivity]|]).
    by apply elem_of_nil in Hr.
  - reflexivity.
  - reflexivity.
  - reflexivity.
  - reflexivity.
  - split; [discriminate|]. exists (0, 1, 2)%nat. split; [left|]. repeat split; reflexivity.
  - exists st'. split; [exact Hrun|apply Hfrozen].
Defined.

(** X15 — A full board is a dead end.  On a board of nine marks every
    click is dropped and the timer callback plays nothing (it only clears
    the lock): no event but New Game changes the board again. *)
Theorem full_board_freezes (fuel : nat) (st : Game.gameState) :
  length (Game.board_ st) = 9%nat -> (9 <= fuel)%nat ->
  Empty ∉ Game.board_ st ->
  (forall index, Game.handleCellClick index st = (Return tt, st, false)) /\
  Game.aiTurn fuel st = Some (Game.withProcessing false st).
Proof.
  intros Hlen Hfuel Hfull. split.
  - intros index. unfold Game.handleCellClick.
    destruct (Game.isProcessing st); [done|].
    case_bool_decide as Hc; [|done]. destruct Hfull.
    apply cellAt_nat in Hc. by eapply list_elem_of_lookup_2.
  - destruct (aiTurn_guarded fuel st Hlen Hfuel) as [[_ Hr]|(k & Hk & _)]; [done|].
    destruct Hfull. by eapply list_elem_of_lookup_2.
Qed.

Lemma full_board_freezes_witness :
  Game.aiTurn 9 (Game.makeMoves [0; 1; 2; 4; 3; 5; 7; 6; 8]%nat Game.initialState)
  = Some (Game.withProcessing false
            (Game.makeMoves [0; 1; 2; 4; 3; 5; 7; 6; 8]%nat Game.initialState)).
Proof.
  refine (proj2 (full_board_freezes 9
            (Game.makeMoves [0; 1; 2; 4; 3; 5; 7; 6; 8]%nat Game.initialState) _ _ _)).
  - reflexivity.
  - lia.
  - intros H. simpl in H.
    repeat (apply elem_of_cons in H as [H|H]; [discriminate H|]).
    by apply elem_of_nil in H.
Defined.

(** X16 — New Game while the computer is thinking.  If the game is reset
    in the mode ['ai'] before a pending timer fires, the callback plays
    cell 0 of the fresh board with the mark of the player to move, which
    is X, hands the turn to O, and every click is dropped from then on. *)
Theorem newGame_before_timer (fuel : nat) (st : Game.gameState) :
  (9 <= fuel)%nat -> Game.gameMode st = Game.ModeAI ->
  exists st', Game.aiTurn fuel (Game.resetGame st) = Some st' /\
    Game.board_ st' = [X; Empty; Empty; Empty; Empty; Empty; Empty; Empty; Empty] /\
    Game.currentPlayer st' = O /\
    Game.isProcessing st' = false /\
    forall j, Game.handleCellClick j st' = (Return tt, st', false).
Proof.
  intros Hfuel Hmode.
  assert (Hbest : AI.getBestMove Game.ai fuel (Game.board_ (Game.resetGame st))
                  = Some (0, Game.board_ (Game.resetGame st))).
  { apply (getBestMove_mono Game.ai 9 fuel); [done|]. by vm_compute. }
  unfold Game.aiTurn. rewrite Hbest. eexists. split; [reflexivity|].
  split; [reflexivity|]. split; [reflexivity|]. split; [reflexivity|].
  intros j. unfold Game.handleCellClick, Game.aiToMove. simpl. rewrite Hmode. simpl.
  by destruct (bool_decide _).
Qed.

Lemma newGame_before_timer_witness :
  exists st', Game.aiTurn 9 (Game.resetGame (Game.makeMove 4 Game.initialState)) = Some st' /\
    Game.board_ st' = [X; Empty; Empty; Empty; Empty; Empty; Empty; Empty; Empty].
Proof.
  destruct (newGame_before_timer 9 (Game.makeMove 4 Game.initialState))
    as (st' & Hrun & Hb & _); [lia|reflexivity|].
  exists st'. split; [exact Hrun|exact Hb].
Defined.

Lemma makeMove_recorded (i : nat) (st : Game.gameState) :
  recorded st -> recorded (Game.makeMove i st).
Proof.
  intros Hrec j m. unfold Game.makeMove.
  set (new := {| Game.index := i; Game.player := Game.currentPlayer st |}).
  assert (Hpush : forall (b : board) h,
    (forall j m, b !! j = Some m -> m <> Empty -> exists r, r ∈ h /\ Game.index r = j) ->
    <[i:=Game.currentPlayer st]> b !! j = Some m -> m <> Empty ->
    exists r, r ∈ h ++ [new] /\ Game.index r = j).
  { intros b h Hb Hj Hm. destruct (decide (i = j)) as [->|Hne].
    - exists new. split; [|done]. apply elem_of_app. right. by left.
    - rewrite list_lookup_insert_ne in Hj by done.
      destruct (Hb j m Hj Hm) as (r & Hr & Hidx). exists r. split; [|done].
      apply elem_of_app. by left. }
  destruct (Game.maxMoves <=? _)%nat; [|by apply Hpush].
  destruct (Game.moveHistory st) as [|r0 h] eqn:Hh; cbn [Game.board_ Game.moveHistory].
  - apply (Hpush _ []). intros j' m' Hj' Hm'.
    destruct (Hrec j' m' Hj' Hm') as (r & Hr & _). rewrite Hh in Hr.
    by apply elem_of_nil in Hr.
  - apply (Hpush _ h). intros j' m' Hj' Hm'.
    destruct (decide (Game.index r0 = j')) as [<-|Hne].
    + destruct (decide (Game.index r0 < length (Game.board_ st))%nat).
      * rewrite list_lookup_insert_eq in Hj' by done. congruence.
      * rewrite list_insert_ge in Hj' by lia. apply lookup_lt_Some in Hj'. lia.
    + rewrite list_lookup_insert_ne in Hj' by done.
      destruct (Hrec j' m' Hj' Hm') as (r & Hr & Hidx). rewrite Hh in Hr.
      exists r. split; [|done].
      apply elem_of_cons in Hr as [->|Hr]; [done|done].
Qed.

Lemma makeMove_history_length (i : nat) (st : Game.gameState) :
  (length (Game.moveHistory st) <= 9)%nat ->
  length (Game.moveHistory (Game.makeMove i st))
  = Nat.min (S (length (Game.moveHistory st))) 9.
Proof.
  intros Hle. unfold Game.makeMove, Game.maxMoves.
  destruct (Nat.leb_spec 9 (length (Game.moveHistory st))) as [Hge|Hlt].
  - destruct (Game.moveHistory st) as [|r0 h]; simpl in *; [lia|].
    rewrite length_app. simpl. lia.
  - simpl. rewrite length_app. simpl. lia.
Qed.

Lemma length_markedFrom (b : board) : forall a,
  length (markedFrom a b) = Game.occupied b.
Proof.
  unfold Game.occupied. induction b as [|c b IH]; intros a; simpl; [done|].
  destruct (decide (c <> Empty)).
  - rewrite filter_cons_True by done. simpl. by rewrite IH.
  - rewrite filter_cons_False by done. apply IH.
Qed.

Lemma elem_of_markedFrom (b : board) : forall a i,
  i ∈ markedFrom a b ->
  (a <= i)%nat /\ exists m, b !! (i - a)%nat = Some m /\ m <> Empty.
Proof.
  induction b as [|c b IH]; intros a i; simpl.
  { intros H. by apply elem_of_nil in H. }
  assert (Hrest : i ∈ markedFrom (S a) b ->
            (a <= i)%nat /\ exists m, (c :: b) !! (i - a)%nat = Some m /\ m <> Empty).
  { intros H. destruct (IH _ _ H) as [Hle (m & Hm & Hne)]. split; [lia|].
    exists m. split; [|done]. replace (i - a)%nat with (S (i - S a)) by lia. done. }
  destruct (decide (c <> Empty)); [|done].
  intros [->|H]%elem_of_cons; [|by apply Hrest].
  split; [lia|]. exists c. by rewrite Nat.sub_diag.
Qed.

Lemma NoDup_markedFrom (b : board) : forall a, NoDup (markedFrom a b).
Proof.
  induction b as [|c b IH]; intros a; simpl; [constructor|].
  destruct (decide (c <> Empty)); [|apply IH].
  constructor; [|apply IH]. intros H%elem_of_markedFrom. lia.
Qed.

Lemma recorded_occupied (st : Game.gameState) :
  recorded st -> (Game.occupied (Game.board_ st) <= length (Game.moveHistory st))%nat.
Proof.
  intros Hrec. rewrite <- (length_markedFrom _ 0).
  rewrite <- (length_fmap Game.index (Game.moveHistory st)).
  apply submseteq_length, NoDup_submseteq; [apply NoDup_markedFrom|].
  intros i [_ (m & Hm & Hne)]%elem_of_markedFrom. rewrite Nat.sub_0_r in Hm.
  destruct (Hrec i m Hm Hne) as (r & Hr & <-). by apply list_elem_of_fmap_2.
Qed.

(** X17 — [makeMove] on any cells of the board.  After [n] calls from the
    reset state on cells 0 to 8, empty or not, the history has [min(n, 9)]
    records, the board still has nine cells, every mark on the board has a
    record in the history, and so there are never more marks than
    records. *)
Theorem makeMoves_any (st0 : Game.gameState) (moves : list nat) :
  Forall (fun i => (i < 9)%nat) moves ->
  let st := Game.makeMoves moves (Game.resetGame st0) in
  length (Game.moveHistory st) = Nat.min (length moves) 9 /\
  length (Game.board_ st) = 9%nat /\
  (forall i m, Game.board_ st !! i = Some m -> m <> Empty ->
     exists r, r ∈ Game.moveHistory st /\ Game.index r = i) /\
  (Game.occupied (Game.board_ st) <= length (Game.moveHistory st))%nat.
Proof.
  intros _. cbv zeta.
  assert (Hgen : forall moves st,
    (length (Game.moveHistory st) <= 9)%nat -> recorded st ->
    length (Game.moveHistory (Game.makeMoves moves st))
      = Nat.min (length (Game.moveHistory st) + length moves) 9 /\
    length (Game.board_ (Game.makeMoves moves st)) = length (Game.board_ st) /\
    recorded (Game.makeMoves moves st)).
  { clear. induction moves as [|i rest IH]; intros st Hle Hrec; simpl.
    - split; [lia|done].
    - pose proof (makeMove_history_length i st Hle) as Hl.
      destruct (IH (Game.makeMove i st)) as (H1 & H2 & H3);
        [lia|by apply makeMove_recorded|].
      split; [lia|]. split; [|done]. rewrite H2. unfold Game.makeMove.
      destruct (Game.maxMoves <=? _)%nat; [destruct (Game.moveHistory st)|];
        simpl; by rewrite ?length_insert. }
  destruct (Hgen moves (Game.resetGame st0)) as (H1 & H2 & H3).
  { simpl. lia. }
  { intros i m Hi Hm. simpl in Hi. apply list_elem_of_lookup_2 in Hi.
    repeat (apply elem_of_cons in Hi as [->|Hi]; [done|]). by apply elem_of_nil in Hi. }
  split; [done|]. split; [done|]. split; [done|]. by apply recorded_occupied.
Qed.

Lemma makeMoves_any_witness :
  let st := Game.makeMoves [4; 4; 0; 8; 0]%nat (Game.resetGame Game.initialState) in
  length (Game.moveHistory st) = 5%nat /\
  (Game.occupied (Game.board_ st) <= length (Game.moveHistory st))%nat.
Proof.
  destruct (makeMoves_any Game.initialState [4; 4; 0; 8; 0]%nat) as (Hh & _ & _ & Hocc).
  - repeat constructor.
  - cbv zeta. split; [exact Hh|exact Hocc].
Defined.

(** Writing a cell changes the count of marks by the difference of the
    two marks. *)
Lemma occupied_insert (b : board) : forall i c m,
  b !! i = Some c ->
  (Game.occupied (<[i:=m]> b) + (if decide (c <> Empty) then 1 else 0)
   = Game.occupied b + (if decide (m <> Empty) then 1 else 0))%nat.
Proof.
  unfold Game.occupied.
  induction b as [|c0 b IH]; intros i c m Hi; [done|].
  destruct i as [|i]; simpl in *.
  - injection Hi as ->.
    assert (Hcons : forall x, length (filter (fun c => c <> Empty) (x :: b))
              = ((if decide (x <> Empty) then 1 else 0)
                 + length (filter (fun c => c <> Empty) b))%nat).
    { intros x. destruct (decide (x <> Empty)).
      - by rewrite filter_cons_True.
      - by rewrite filter_cons_False. }
    rewrite !Hcons. lia.
  - specialize (IH i c m Hi).
    destruct (decide (c0 <> Empty)).
    + rewrite !filter_cons_True by done. simpl. lia.
    + rewrite !filter_cons_False by done. lia.
Qed.

(** The player to move alternates with every call. *)
Lemma makeMoves_player moves : forall st,
  Game.currentPlayer (Game.makeMoves moves st)
  = Nat.iter (length moves) Game.switchPlayer (Game.currentPlayer st).
Proof.
  induction moves as [|i rest IH]; intros st; [done|].
  cbn [Game.makeMoves length]. rewrite IH.
  rewrite (proj2 (proj2 (proj2 (makeMove_keeps i st)))).
  by rewrite Nat.iter_succ_r.
Qed.

(** X21 — What a tenth [makeMove] does.  After nine valid moves from the
    reset state the board is full and O is to move.  A further call, on any
    cell 0 to 8, drops the record of the first move and clears its cell
    before writing O: the history keeps nine records, from the second move
    to the new one, and X is to move.  On the cell of the first move the
    board stays full; on any other cell the cell of the first move is left
    empty and eight marks remain for nine records. *)
Theorem tenth_move_evicts (st0 : Game.gameState) (first second : nat)
    (rest : list nat) (index : nat) :
  Game.validMoves (first :: second :: rest) (Game.resetGame st0) ->
  length rest = 7%nat -> (index < 9)%nat ->
  let st := Game.makeMoves (first :: second :: rest) (Game.resetGame st0) in
  let st' := Game.makeMove index st in
  Game.moveHistory st'
    = records (second :: rest) O ++ [ {| Game.index := index; Game.player := O |} ] /\
  length (Game.moveHistory st') = 9%nat /\
  Game.board_ st' = <[index := O]> (<[first := Empty]> (Game.board_ st)) /\
  Game.currentPlayer st' = X /\
  (index = first ->
   Game.occupied (Game.board_ st') = 9%nat /\
   Game.board_ st' !! first = Some O) /\
  (index <> first ->
   Game.occupied (Game.board_ st') = 8%nat /\
   Game.board_ st' !! first = Some Empty).
Proof.
  intros Hv Hrest Hidx st st'.
  destruct (makeMoves_valid (first :: second :: rest) (Game.resetGame st0))
    as [(Hblen & Hocc & _) Hh]; [apply resetGame_consistent|done|].
  fold st in Hblen, Hocc, Hh. simpl in Hh.
  assert (Hfirst : (first < 9)%nat).
  { destruct Hv as [Hf _]. apply lookup_lt_Some in Hf. simpl in Hf. lia. }
  assert (Hp : Game.currentPlayer st = O).
  { subst st. rewrite makeMoves_player. cbn [length]. rewrite Hrest. reflexivity. }
  assert (Hnine : Game.occupied (Game.board_ st) = 9%nat).
  { rewrite <- Hocc, Hh. cbn [length]. rewrite length_records, Hrest. reflexivity. }
  assert (Hfull : forall i c, Game.board_ st !! i = Some c -> c <> Empty).
  { intros i c Hi ->. pose proof (occupied_lt _ (list_elem_of_lookup_2 _ _ _ Hi)). lia. }
  assert (Hb : Game.board_ st' = <[index := O]> (<[first := Empty]> (Game.board_ st))).
  { subst st'. unfold Game.makeMove, Game.maxMoves. rewrite Hh, Hp.
    cbn [length]. rewrite length_records, Hrest. reflexivity. }
  assert (Hhist : Game.moveHistory st'
    = records (second :: rest) O ++ [ {| Game.index := index; Game.player := O |} ]).
  { subst st'. unfold Game.makeMove, Game.maxMoves. rewrite Hh, Hp.
    cbn [length]. rewrite length_records, Hrest. reflexivity. }
  destruct (lookup_lt_is_Some_2 (Game.board_ st) first) as [c Hc]; [lia|].
  pose proof (occupied_insert (Game.board_ st) first c Empty Hc) as Hclear.
  rewrite decide_True in Hclear by (by eapply Hfull).
  rewrite decide_False in Hclear by (intros H; by apply H).
  split; [exact Hhist|]. split.
  { rewrite Hhist, length_app, length_records. cbn [length]. rewrite Hrest. reflexivity. }
  split; [exact Hb|]. split.
  { subst st'. rewrite (proj2 (proj2 (proj2 (makeMove_keeps index st)))), Hp. reflexivity. }
  split.
  - intros ->. rewrite Hb. split.
    + rewrite occupied_place; [lia| |done].
      apply list_lookup_insert_eq. lia.
    + apply list_lookup_insert_eq. rewrite length_insert. lia.
  - intros Hne. rewrite Hb. split.
    + destruct (lookup_lt_is_Some_2 (Game.board_ st) index) as [d Hd]; [lia|].
      pose proof (occupied_insert (<[first := Empty]> (Game.board_ st)) index d O) as Hput.
      rewrite list_lookup_insert_ne in Hput by done. specialize (Hput Hd).
      rewrite decide_True in Hput by (by eapply Hfull).
      rewrite decide_True in Hput by done. lia.
    + rewrite list_lookup_insert_ne by done. apply list_lookup_insert_eq. lia.
Qed.

Lemma tenth_move_evicts_witness :
  let st := Game.makeMoves [0; 1; 2; 4; 3; 5; 7; 6; 8]%nat (Game.resetGame Game.initialState) in
  Game.occupied (Game.board_ (Game.makeMove 5 st)) = 8%nat /\
  Game.board_ (Game.makeMove 5 st) !! 0%nat = Some Empty.
Proof.
  destruct (tenth_move_evicts Game.initialState 0 1 [2; 4; 3; 5; 7; 6; 8] 5)%nat
    as (_ & _ & _ & _ & _ & Hother).
  - simpl. repeat split; reflexivity.
  - reflexivity.
  - lia.
  - cbv zeta. apply Hother. lia.
Defined.

(** X18 — The warning on the oldest mark.  In a game of valid moves from
    the reset state, the class ['oldest'] is on no cell during the first
    seven moves, and from the eighth move on it is on the cell of the first
    move. *)
Theorem oldestIndicator_valid (st0 : Game.gameState) (first : nat) (rest : list nat) :
  Game.validMoves (first :: rest) (Game.resetGame st0) ->
  Game.oldestIndicator (Game.makeMoves (first :: rest) (Game.resetGame st0))
  = if (8 <=? length (first :: rest))%nat then Some first else None.
Proof.
  intros Hv.
  destruct (makeMoves_valid (first :: rest) (Game.resetGame st0)) as [_ Hh];
    [apply resetGame_consistent|done|].
  unfold Game.oldestIndicator. rewrite Hh. simpl.
  rewrite length_records. by destruct (7 <=? length rest)%nat.
Qed.

Lemma oldestIndicator_valid_witness :
  Game.oldestIndicator
    (Game.makeMoves [4; 0; 8; 2; 1; 7; 3; 5]%nat (Game.resetGame Game.initialState))
  = Some 4%nat.
Proof.
  apply (oldestIndicator_valid Game.initialState 4 [0; 8; 2; 1; 7; 3; 5]%nat).
  simpl. repeat split; reflexivity.
Defined.

Lemma checkGameStatus_draws (st : Game.gameState) :
  Game.draws (Game.scores (snd (Game.checkGameStatus st))) = Game.draws (Game.scores st).
Proof.
  unfold Game.checkGameStatus.
  destruct (Game.findWin _ _) as [[w p]|]; [|done]. by destruct w.
Qed.

Lemma handleCellClick_draws (index : Z) (st : Game.gameState) :
  Game.draws (Game.scores (snd (fst (Game.handleCellClick index st))))
  = Game.draws (Game.scores st).
Proof.
  unfold Game.handleCellClick.
  destruct (Game.isProcessing st); [done|].
  destruct (negb _); [done|]. destruct (Game.aiToMove st); [done|].
  pose proof (checkGameStatus_draws (Game.makeMove (Z.to_nat index) st)) as Hd.
  rewrite (proj1 (proj2 (proj2 (makeMove_keeps _ _)))) in Hd.
  destruct (Game.checkGameStatus _) as [ended st2]. simpl in Hd.
  destruct ended; [done|]. by destruct (Game.aiToMove st2).
Qed.

Lemma aiTurn_draws (fuel : nat) (st st' : Game.gameState) :
  Game.aiTurn fuel st = Some st' ->
  Game.draws (Game.scores st') = Game.draws (Game.scores st).
Proof.
  unfold Game.aiTurn. destruct (AI.getBestMove _ _ _) as [[m b]|]; [|discriminate].
  intros [= <-]. cbn [Game.withProcessing Game.scores].
  destruct (negb _ && _); [|done].
  rewrite checkGameStatus_draws.
  by rewrite (proj1 (proj2 (proj2 (makeMove_keeps _ _)))).
Qed.

(** X19 — No draw is ever counted.  Whatever happens on the page, the
    draw counter holds the value that was loaded when the page started, or
    0 once the scores have been reset: nothing increments it. *)
Theorem running_draws (fuel : nat) (saved : option Game.scoreBoard) (w : Game.world) :
  Game.running fuel saved w ->
  Game.draws (Game.scores (Game.game w))
    = Game.draws (Game.scores (Game.game (Game.loadedWorld saved))) \/
  Game.draws (Game.scores (Game.game w)) = 0.
Proof.
  induction 1 as [|w w' _ IH Hstep]; [by left|].
  destruct Hstep as [w index|w n st' _ Hai|w|w m|w confirmed]; simpl.
  - by rewrite handleCellClick_draws.
  - by rewrite (aiTurn_draws _ _ _ Hai).
  - done.
  - done.
  - destruct confirmed; [by right|done].
Qed.

Lemma running_draws_witness :
  Game.draws (Game.scores (snd (fst (Game.handleCellClick 2
      (Game.makeMoves [0; 3; 1; 4]%nat
         (Game.loadScores (Some {| Game.scoreX := 1; Game.scoreO := 2; Game.draws := 5 |})
            (Game.setGameMode Game.Mode2P Game.initialState)))))))
    = 5 \/
  Game.draws (Game.scores (snd (fst (Game.handleCellClick 2
      (Game.makeMoves [0; 3; 1; 4]%nat
         (Game.loadScores (Some {| Game.scoreX := 1; Game.scoreO := 2; Game.draws := 5 |})
            (Game.setGameMode Game.Mode2P Game.initialState)))))))
    = 0.
Proof.
  pose (saved := Some {| Game.scoreX := 1; Game.scoreO := 2; Game.draws := 5 |}).
  pose (w0 := Game.loadedWorld saved).
  pose (w1 := {| Game.game := Game.setGameMode Game.Mode2P (Game.game w0);
                 Game.pendingTimers := Game.pendingTimers w0 |}).
  pose (click := fun i (w : Game.world) =>
                   {| Game.game := snd (fst (Game.handleCellClick i (Game.game w)));
                      Game.pendingTimers :=
                        if snd (Game.handleCellClick i (Game.game w))
                        then S (Game.pendingTimers w) else Game.pendingTimers w |}).
  apply (running_draws 9 saved (click 2 (click 4 (click 1 (click 3 (click 0 w1)))))).
  repeat (eapply Game.running_step; [|apply Game.step_click]).
  eapply Game.running_step; [apply Game.running_init|].
  apply (Game.step_setGameMode 9 w0 Game.Mode2P).
Defined.

(** ** A game against the computer, move by move *)

Lemma safe_start : safe Game.ai 9 10 true emptyBoard = true.
Proof. vm_compute. reflexivity. Qed.

Lemma reachable_not_lost (fuel : nat) t (b : board) :
  (9 <= fuel)%nat -> reachable Game.ai fuel t b ->
  length b = 9%nat /\ AI.checkWinner b <> Some (AI.Winner X).
Proof.
  intros Hfuel Hr.
  destruct (safe_reachable Game.ai fuel t b Hfuel safe_start Hr) as [Hlen [n Hn]].
  split; [done|]. by apply (safe_not_lost Game.ai 9 n t b).
Qed.

Lemma aiTurn_best (fuel : nat) (st : Game.gameState) :
  length (Game.board_ st) = 9%nat -> (9 <= fuel)%nat -> Empty ∈ Game.board_ st ->
  exists k, AI.getBestMove Game.ai fuel (Game.board_ st)
            = Some (Z.of_nat k, Game.board_ st) /\
    Game.board_ st !! k = Some Empty /\
    Game.aiTurn fuel st
    = Some (Game.withProcessing false
              (snd (Game.checkGameStatus (Game.makeMove k st)))).
Proof.
  intros Hlen Hfuel He. unfold Game.aiTurn.
  destruct (getBestMove_cases Game.ai fuel (Game.board_ st))
    as [[_ Hn]|(k & z & Hrun & Hk9 & Hk & _)];
    [split; discriminate|done|done|done|].
  exists k. split; [done|]. split; [done|]. rewrite Hrun, withBoard_same.
  replace (Z.of_nat k =? -1) with false by (symmetry; apply Z.eqb_neq; lia).
  unfold Game.cellAt. rewrite (proj2 (Z.leb_le 0 (Z.of_nat k))) by lia.
  rewrite Nat2Z.id, Hk. by rewrite bool_decide_eq_true_2.
Qed.

Lemma checkWinner_after_place (b : board) i m m' :
  noLine b -> b !! i = Some Empty ->
  AI.checkWinner (<[i:=m]> b) = Some (AI.Winner m') -> m' = m.
Proof.
  intros Hno Hi Hw. apply checkWinner_winner, firstLine_hasLine in Hw.
  destruct Hw as [Hm' (p & Hin & Hl)].
  destruct (onLine_dec i p) as [Hon|Hoff].
  - eapply holdsLine_on; [|exact Hon|exact Hl]. by eapply lookup_lt_Some.
  - destruct (Hno m'). split; [done|]. exists p. split; [done|]. by eapply holdsLine_off.
Qed.

Lemma checkGameStatus_cases (st : Game.gameState) :
  (exists m p, AI.checkWinner (Game.board_ st) = Some (AI.Winner m) /\
     Game.checkGameStatus st = (true, Game.handleWin m p st)) \/
  ((forall m, AI.checkWinner (Game.board_ st) <> Some (AI.Winner m)) /\
   Game.checkGameStatus st = (false, st)).
Proof.
  unfold Game.checkGameStatus.
  destruct (Game.findWin _ _) as [[m p]|] eqn:Hf.
  - left. exists m, p. split; [|done].
    apply findWin_Some in Hf as (Hf & _). by apply checkWinner_winner.
  - right. split; [|done]. intros m Hw%checkWinner_winner.
    apply findWin_firstLine in Hf. change Game.winPatterns with AI.winPatterns in Hf.
    congruence.
Qed.

(** X20 — Against the computer, the first win is the computer's.  A new
    game in the mode ['ai'] is under way; and from a game under way, a
    click followed by the timer it sets leaves the score of X as it was
    and ends in one of three ways: the game is still under way, or O has
    filled a line and the score of O has grown by one, or the board is
    full and no score has changed. *)
Theorem first_win_is_the_computers (fuel : nat) :
  (9 <= fuel)%nat ->
  (forall st0, Game.gameMode st0 = Game.ModeAI -> Game.isProcessing st0 = false ->
     underway fuel (Game.resetGame st0)) /\
  (forall index st, underway fuel st ->
     exists st', playRound fuel index st = Some st' /\
       Game.scoreX (Game.scores st') = Game.scoreX (Game.scores st) /\
       (underway fuel st' \/
        (hasLine (Game.board_ st') O /\
         Game.scoreO (Game.scores st') = Game.scoreO (Game.scores st) + 1) \/
        ((Empty ∉ Game.board_ st') /\ Game.scores st' = Game.scores st))).
Proof.
  intros Hfuel. split.
  { intros st0 Hmode Hp. split; [done|]. split; [done|]. split; [done|].
    split; [apply resetGame_coherent|]. split; [apply reach_start|reflexivity]. }
  intros index st (Hmode & Hp & Hcur & Hc & Hreach & Hopen).
  unfold playRound, Game.handleCellClick. rewrite Hp.
  case_bool_decide as Hcell; simpl.
  2:{ exists st. split; [done|]. split; [done|]. left.
      exact (conj Hmode (conj Hp (conj Hcur (conj Hc (conj Hreach Hopen))))). }
  unfold Game.aiToMove at 1. rewrite Hcur, andb_false_r.
  pose proof (cellAt_nat _ _ Hcell) as Hi. set (i := Z.to_nat index) in *.
  destruct (makeMove_valid i st (proj1 Hc) Hi) as (Hb1 & _ & Hcur1 & _).
  pose proof (makeMove_coherent i st Hc Hi) as Hc1.
  destruct (makeMove_keeps i st) as (Hmode1 & Hp1 & Hs1 & _).
  rewrite Hcur in Hb1, Hcur1. simpl in Hcur1.
  assert (Hreach1 : reachable Game.ai fuel false (Game.board_ (Game.makeMove i st))).
  { rewrite Hb1. by apply (reach_opponent Game.ai fuel). }
  destruct (reachable_not_lost fuel _ _ Hfuel Hreach1) as [Hlen1 Hsafe1].
  apply checkWinner_None in Hopen as Hopen'. destruct Hopen' as [Hno _].
  destruct (checkGameStatus_cases (Game.makeMove i st))
    as [(m & p & Hw & _)|[Hnow Hst]].
  { exfalso. rewrite Hb1 in Hw, Hsafe1.
    rewrite (checkWinner_after_place _ _ _ _ Hno Hi Hw) in Hw. done. }
  rewrite Hst. unfold Game.aiToMove. rewrite Hmode1, Hmode, Hcur1. simpl.
  set (st1 := Game.withProcessing true (Game.makeMove i st)).
  destruct (decide (Empty ∈ Game.board_ (Game.makeMove i st))) as [He|Hfull].
  - (* the computer answers *)
    destruct (aiTurn_best fuel st1) as (k & Hbest & Hk & Hturn); [done|done|done|].
    rewrite Hturn. eexists. split; [reflexivity|].
    assert (Hc1' : coherent st1) by (by eapply coherent_ext; [..|exact Hc1]).
    destruct (makeMove_valid k st1 (proj1 Hc1') Hk) as (Hb2 & _ & Hcur2 & _).
    pose proof (makeMove_coherent k st1 Hc1' Hk) as Hc2.
    destruct (makeMove_keeps k st1) as (Hmode2 & Hp2 & Hs2 & _).
    change (Game.currentPlayer st1) with (Game.currentPlayer (Game.makeMove i st))
      in Hb2, Hcur2.
    change (Game.board_ st1) with (Game.board_ (Game.makeMove i st)) in Hb2, Hbest, Hk.
    change (Game.scores st1) with (Game.scores (Game.makeMove i st)) in Hs2.
    change (Game.gameMode st1) with (Game.gameMode (Game.makeMove i st)) in Hmode2.
    rewrite Hcur1 in Hb2, Hcur2. simpl in Hcur2.
    assert (Hopen1 : AI.checkWinner (Game.board_ (Game.makeMove i st)) = None).
    { destruct (AI.checkWinner (Game.board_ (Game.makeMove i st)))
        as [[m|]|] eqn:Hw1; [by destruct (Hnow m)| |reflexivity].
      apply checkWinner_draw in Hw1 as [_ Hn]. by destruct Hn. }
    assert (Hreach2 : reachable Game.ai fuel true (Game.board_ (Game.makeMove k st1))).
    { rewrite Hb2. by apply (reach_computer Game.ai fuel _ _ k Hreach1). }
    destruct (reachable_not_lost fuel _ _ Hfuel Hreach2) as [Hlen2 Hsafe2].
    destruct (checkGameStatus_cases (Game.makeMove k st1))
      as [(m & p & Hw & Hst2)|[Hnow2 Hst2]]; rewrite Hst2;
      cbn [snd Game.withProcessing Game.handleWin Game.scores Game.board_ Game.gameMode Game.isProcessing Game.currentPlayer Game.moveHistory Game.bumpScore Game.scoreX Game.scoreO].
    + assert (m = O) as ->.
      { rewrite Hb2 in Hw. apply checkWinner_None in Hopen1 as [Hno1 _].
        by apply (checkWinner_after_place _ _ _ _ Hno1 Hk Hw). }
      rewrite Hs2, Hs1. split; [done|]. right. left. split; [|done].
      by apply checkWinner_winner, firstLine_hasLine in Hw.
    + rewrite Hs2, Hs1. split; [done|].
      destruct (AI.checkWinner (Game.board_ (Game.makeMove k st1))) as [[m|]|] eqn:Hw2.
      * by destruct (Hnow2 m).
      * right. right. apply checkWinner_draw in Hw2 as [_ Hn].
        split; [exact Hn|first [done|by rewrite Hs2, Hs1]].
      * left. split; [|split; [reflexivity|split; [exact Hcur2|]]].
        { change (Game.gameMode (Game.makeMove k st1) = Game.ModeAI). congruence. }
        split; [|split; [exact Hreach2|exact Hw2]].
        by eapply coherent_ext; [..|exact Hc2].
  - (* the board is full: the callback plays nothing *)
    destruct (aiTurn_guarded fuel st1) as [[_ Hturn]|(k & Hk & _)]; [done|done| |].
    2:{ destruct Hfull. by eapply list_elem_of_lookup_2. }
    rewrite Hturn. exists (Game.withProcessing false st1). split; [reflexivity|].
    change (Game.scores (Game.withProcessing false st1))
      with (Game.scores (Game.makeMove i st)).
    change (Game.board_ (Game.withProcessing false st1))
      with (Game.board_ (Game.makeMove i st)).
    rewrite Hs1. split; [done|]. right. right. split; [exact Hfull|done].
Qed.

Lemma first_win_is_the_computers_witness :
  exists st', playRound 9 4 (Game.resetGame Game.initialState) = Some st' /\
    Game.scoreX (Game.scores st') = 0.
Proof.
  destruct (first_win_is_the_computers 9) as [Hstart Hround]; [lia|].
  destruct (Hround 4 (Game.resetGame Game.initialState)) as (st' & Hrun & Hx & _);
    [apply Hstart; reflexivity|].
  exists st'. split; [exact Hrun|exact Hx].
Defined.
